(** * gh-mcp-server: the repository walker and the three request handlers

    A shallow embedding of [src/index.ts].  JavaScript strings are modelled
    as [string] (sequences of 8-bit units: every operation used by the
    program, [includes], [split], [join], the default [sort] order, works
    unit by unit, so the model is exact on such strings).  The remote
    hosting API is a function from a request to its response; the
    asynchronous calls are sequential, so a computation is a value, or an
    exception, together with the trace of remote calls and [console.error]
    lines it emitted.  The recursion of [getAllFiles] follows the remote
    tree and is bounded by fuel. *)

From Stdlib Require Import String Ascii List Bool Arith ZArith Lia.
From Stdlib Require Import Permutation Sorted DecimalString.
Import ListNotations.
Local Open Scope list_scope.
Local Open Scope string_scope.

(** ** JavaScript string and array primitives used by the program *)

Module JS.

(** The one-character strings that have no literal form. *)
Definition nl : string := String (ascii_of_nat 10) EmptyString.

(** [s.includes(sub)]: [sub] occurs in [s] as a contiguous substring. *)
Fixpoint includes (s sub : string) : bool :=
  prefix sub s ||
  match s with
  | EmptyString => false
  | String _ s' => includes s' sub
  end.

(** [s.split(c)] for a one-character separator: never an empty array. *)
Fixpoint split (c : ascii) (s : string) : list string :=
  match s with
  | EmptyString => [EmptyString]
  | String a s' =>
      if Ascii.eqb a c then EmptyString :: split c s'
      else match split c s' with
           | h :: t => String a h :: t
           | [] => [String a EmptyString]
           end
  end.

(** [arr.pop()]: the last element, [undefined] on an empty array. *)
Fixpoint pop (l : list string) : option string :=
  match l with
  | [] => None
  | [x] => Some x
  | _ :: t => pop t
  end.

(** [x || ''] on a [string | undefined]: the empty string and [undefined]
    are the falsy values. *)
Definition or_empty (x : option string) : string :=
  match x with
  | Some s => if (s =? "") then "" else s
  | None => ""
  end.

(** [!x] on a [string | null]. *)
Definition falsy (x : option string) : bool :=
  match x with
  | Some s => (s =? "")
  | None => true
  end.

(** [arr.includes(x)] on an array of strings. *)
Definition arr_includes (arr : list string) (x : string) : bool :=
  existsb (String.eqb x) arr.

(** [arr.slice(0, end)] for an integer [end]: a negative [end] counts from
    the end of the array. *)
Definition slice0 {A} (arr : list A) (e : Z) : list A :=
  if (e <? 0)%Z
  then firstn (Z.to_nat (Z.max (Z.of_nat (List.length arr) + e) 0)) arr
  else firstn (Z.to_nat e) arr.

(** [arr.join(sep)]. *)
Definition join (sep : string) (arr : list string) : string :=
  String.concat sep arr.

(** [arr.sort()] on strings: the default comparison orders strings by
    their units, lexicographically.  The result is the sorted permutation
    of the input; it is computed here by insertion. *)
Fixpoint insert (x : string) (l : list string) : list string :=
  match l with
  | [] => [x]
  | y :: t => if String.leb x y then x :: l else y :: insert x t
  end.

Fixpoint sort (l : list string) : list string :=
  match l with
  | [] => []
  | x :: t => insert x (sort t)
  end.

(** [String(n)] for an array length. *)
Definition of_nat (n : nat) : string :=
  NilEmpty.string_of_uint (Nat.to_uint n).

End JS.

(** ** Data model *)

(** The value of a thrown exception, as its message. *)
Definition error := string.

(** One object of the hosting API's answer: an entry of a directory
    listing, or the description of a single file.  A field that the
    object lacks is [None]. *)
Record item := {
  item_type : option string;
  item_path : string;
  item_content : option string;
  item_encoding : option string
}.

(** [response.data] of [octokit.repos.getContent]. *)
Inductive data :=
| DataArray (items : list item)
| DataObject (o : item)
| DataNull.

(** The awaited remote call resolves with data or rejects. *)
Inductive response :=
| Resolved (d : data)
| Rejected (e : error).

(** What a request does besides returning: remote calls and lines on the
    diagnostic channel ([console.error(msg)] or [console.error(msg, error)]). *)
Inductive event :=
| Call (owner repo path : string)
| ConsoleError (msg : string) (err : option error).

(** [{ path, type }] as built by [getAllFiles]. *)
Record file := { file_path : string; file_type : string }.

(** [{ path, content }] as built by the get-repo-context handler. *)
Record file_content := { fc_path : string; fc_content : option string }.

(** [{ content: [{ type: "text", text }] }], the shape of every answer. *)
Record text_part := { part_type : string; text : string }.
Record tool_result := { content : list text_part }.

Definition text_result (t : string) : tool_result :=
  {| content := [ {| part_type := "text"; text := t |} ] |}.

(** The parameters of get-repo-context; an optional one may be absent. *)
Record context_args := {
  owner : string;
  repo : string;
  maxFiles : option Z;
  fileExtensions : option (list string);
  excludePaths : option (list string)
}.

(** ** Computations: result or exception, with the emitted trace *)

Inductive outcome (A : Type) :=
| Ret (a : A)
| Raise (e : error).
Arguments Ret {A} a.
Arguments Raise {A} e.

(** [None] is a computation that was cut by lack of fuel. *)
Definition M (A : Type) : Type := option (outcome A * list event).

Definition ret {A} (a : A) : M A := Some (Ret a, []).
Definition raise {A} (e : error) : M A := Some (Raise e, []).
Definition emit (ev : event) : M unit := Some (Ret tt, [ev]).
Definition lift {A} (o : outcome A) : M A := Some (o, []).

Definition bind {A B} (m : M A) (f : A -> M B) : M B :=
  match m with
  | None => None
  | Some (Raise e, t) => Some (Raise e, t)
  | Some (Ret a, t) =>
      match f a with
      | None => None
      | Some (o, t') => Some (o, (t ++ t')%list)
      end
  end.

(** [try { m } catch (error) { h error }] *)
Definition try_catch {A} (m : M A) (h : error -> M A) : M A :=
  match m with
  | Some (Raise e, t) =>
      match h e with
      | None => None
      | Some (o, t') => Some (o, (t ++ t')%list)
      end
  | _ => m
  end.

Declare Scope js_scope.
Delimit Scope js_scope with js.
Notation "x <- m ;; k" := (bind m (fun x => k))
  (at level 61, m at next level, right associativity) : js_scope.
Notation "m ;; k" := (bind m (fun _ => k))
  (at level 61, right associativity) : js_scope.
Local Open Scope js_scope.

(** [for (const x of l) { s = body x s }] *)
Fixpoint for_of {A S} (l : list A) (body : A -> S -> M S) (s : S) : M S :=
  match l with
  | [] => ret s
  | x :: t => s' <- body x s ;; for_of t body s'
  end.

Definition console_error (msg : string) (err : option error) : M unit :=
  emit (ConsoleError msg err).

(** [x === s] for a possibly missing string field. *)
Definition field_is (x : option string) (s : string) : bool :=
  match x with
  | Some v => (v =? s)
  | None => false
  end.

(** [`${x}`] for a [string | null]. *)
Definition str (x : option string) : string :=
  match x with
  | Some s => s
  | None => "null"
  end.

(** The message of the [TypeError] of ['content' in null]. *)
Definition in_null_error : error :=
  "Cannot use 'in' operator to search for 'content' in null".

(** ** The program *)

Section Server.

(** The hosting service, and [Buffer.from(c, 'base64').toString('utf-8')]
    of the Node runtime, which gives a string or throws. *)
Variable remote : string -> string -> string -> response.
Variable base64_utf8 : string -> outcome string.

(** [await octokit.repos.getContent({ owner, repo, path })], giving
    [response.data]. *)
Definition getContent (owner repo path : string) : M data :=
  match remote owner repo path with
  | Resolved d => Some (Ret d, [Call owner repo path])
  | Rejected e => Some (Raise e, [Call owner repo path])
  end.

Definition getRepoContents (owner repo path : string) : M (list item) :=
  try_catch
    (d <- getContent owner repo path ;;
     match d with
     | DataArray items => ret items
     | DataObject o =>
         match item_type o with
         | Some _ => ret [o]
         | None => ret []
         end
     | DataNull => ret []
     end)
    (fun error =>
       console_error ("Error getting repo contents for "
                      ++ owner ++ "/" ++ repo ++ "/" ++ path ++ ":")
                     (Some error) ;;
       ret []).

Definition getFileContent (owner repo path : string) : M (option string) :=
  try_catch
    (d <- getContent owner repo path ;;
     match d with
     | DataObject o =>
         match item_content o, item_encoding o with
         | Some c, Some enc =>
             if (enc =? "base64") then
               s <- lift (base64_utf8 c) ;; ret (Some s)
             else ret None
         | _, _ => ret None
         end
     | DataArray _ => ret None
     | DataNull => raise in_null_error
     end)
    (fun error =>
       console_error ("Error getting file content for "
                      ++ owner ++ "/" ++ repo ++ "/" ++ path ++ ":")
                     (Some error) ;;
       ret None).

(** One iteration of the loop of [getAllFiles]; [recur] is the recursive
    call. *)
Definition getAllFiles_step (recur : string -> M (list file))
    (it : item) (allFiles : list file) : M (list file) :=
  if field_is (item_type it) "file" then
    ret (allFiles ++ [ {| file_path := item_path it; file_type := "file" |} ])%list
  else if field_is (item_type it) "dir" then
    subFiles <- recur (item_path it) ;;
    ret (allFiles ++ subFiles)%list
  else ret allFiles.

Fixpoint getAllFiles (fuel : nat) (owner repo path : string)
  : M (list file) :=
  match fuel with
  | O => None
  | S fuel' =>
      contents <- getRepoContents owner repo path ;;
      for_of contents (getAllFiles_step (getAllFiles fuel' owner repo)) []
  end.

(** *** get-repo-context *)

(** The callback of [allFiles.filter]. *)
Definition keep_file (excludePaths fileExtensions : list string)
    (f : file) : bool :=
  if existsb (fun excludePath => JS.includes (file_path f) excludePath)
             excludePaths
  then false
  else match fileExtensions with
       | _ :: _ =>
           let extension :=
             JS.or_empty (JS.pop (JS.split "." (file_path f))) in
           JS.arr_includes fileExtensions extension
       | [] => true
       end.

(** The filter followed by [slice(0, maxFiles)]. *)
Definition selectFiles (excludePaths fileExtensions : list string)
    (maxFiles : Z) (allFiles : list file) : list file :=
  JS.slice0 (filter (keep_file excludePaths fileExtensions) allFiles) maxFiles.

(** The body of the content loop. *)
Definition fetch_step (owner repo : string) (f : file)
    (fileContents : list file_content) : M (list file_content) :=
  if (file_type f =? "file") then
    content <- getFileContent owner repo (file_path f) ;;
    ret (fileContents
         ++ [ {| fc_path := file_path f; fc_content := content |} ])%list
  else ret fileContents.

Definition fence : string := "```".

(** The template of one block. *)
Definition block (f : file_content) : string :=
  "File: " ++ fc_path f ++ JS.nl ++ JS.nl ++ fence ++ JS.nl
  ++ str (fc_content f) ++ JS.nl ++ fence ++ JS.nl ++ JS.nl.

Definition has_content (f : file_content) : bool :=
  match fc_content f with
  | Some _ => true
  | None => false
  end.

Definition separator : string := "---" ++ JS.nl ++ JS.nl.

Definition formatContent (fileContents : list file_content) : string :=
  JS.join separator (map block (filter has_content fileContents)).

Definition default {A} (x : option A) (d : A) : A :=
  match x with
  | Some v => v
  | None => d
  end.

Definition get_repo_context (fuel : nat) (a : context_args)
  : M tool_result :=
  let owner := owner a in
  let repo := repo a in
  let maxFiles := default (maxFiles a) 50%Z in
  let fileExtensions := default (fileExtensions a) [] in
  let excludePaths :=
    default (excludePaths a) ["node_modules"; "dist"; "build"] in
  try_catch
    (console_error ("Fetching files from " ++ owner ++ "/" ++ repo ++ "...")
                   None ;;
     allFiles <- getAllFiles fuel owner repo "" ;;
     console_error ("Found " ++ JS.of_nat (List.length allFiles)
                    ++ " total files in the repository") None ;;
     let filteredFiles :=
       selectFiles excludePaths fileExtensions maxFiles allFiles in
     console_error ("Selected " ++ JS.of_nat (List.length filteredFiles)
                    ++ " files after filtering") None ;;
     fileContents <- for_of filteredFiles (fetch_step owner repo) [] ;;
     let formattedContent := formatContent fileContents in
     ret (text_result ("Repository Context for " ++ owner ++ "/" ++ repo
                       ++ ":" ++ JS.nl ++ JS.nl ++ formattedContent)))
    (fun error =>
       console_error "Error fetching repository context:" (Some error) ;;
       ret (text_result ("Error fetching repository context: " ++ error))).

(** *** get-file-content *)

Definition get_file_content (owner repo path : string) : M tool_result :=
  try_catch
    (content <- getFileContent owner repo path ;;
     if JS.falsy content then
       ret (text_result ("Could not retrieve content for " ++ path
                         ++ " in " ++ owner ++ "/" ++ repo))
     else
       ret (text_result ("File: " ++ path ++ JS.nl ++ JS.nl ++ fence ++ JS.nl
                         ++ str content ++ JS.nl ++ fence)))
    (fun error =>
       console_error ("Error fetching file content for " ++ path ++ ":")
                     (Some error) ;;
       ret (text_result ("Error fetching file content: " ++ error))).

(** *** get-repo-structure *)

Definition get_repo_structure (fuel : nat) (owner repo : string)
  : M tool_result :=
  try_catch
    (allFiles <- getAllFiles fuel owner repo "" ;;
     let fileStructure := JS.join JS.nl (JS.sort (map file_path allFiles)) in
     ret (text_result ("Repository Structure for " ++ owner ++ "/" ++ repo
                       ++ ":" ++ JS.nl ++ JS.nl ++ fileStructure)))
    (fun error =>
       console_error "Error fetching repository structure:" (Some error) ;;
       ret (text_result ("Error fetching repository structure: " ++ error))).

End Server.

(** ** The values of the two remote functions

    Both catch every exception, so what they return is a function of the
    response alone. *)

(** What [getRepoContents] returns for a response. *)
Definition listing (resp : response) : list item :=
  match resp with
  | Resolved (DataArray items) => items
  | Resolved (DataObject o) =>
      match item_type o with
      | Some _ => [o]
      | None => []
      end
  | Resolved DataNull => []
  | Rejected _ => []
  end.

(** What [getFileContent] returns for a response. *)
Definition fetched (base64_utf8 : string -> outcome string)
    (resp : response) : option string :=
  match resp with
  | Resolved (DataObject o) =>
      match item_content o, item_encoding o with
      | Some c, Some enc =>
          if (enc =? "base64") then
            match base64_utf8 c with
            | Ret s => Some s
            | Raise _ => None
            end
          else None
      | _, _ => None
      end
  | _ => None
  end.

(** The exception [getFileContent] catches for a response, if any. *)
Definition fetch_failure (base64_utf8 : string -> outcome string)
    (resp : response) : option error :=
  match resp with
  | Rejected e => Some e
  | Resolved DataNull => Some in_null_error
  | Resolved (DataObject o) =>
      match item_content o, item_encoding o with
      | Some c, Some enc =>
          if (enc =? "base64") then
            match base64_utf8 c with
            | Ret _ => None
            | Raise e => Some e
            end
          else None
      | _, _ => None
      end
  | Resolved (DataArray _) => None
  end.

(** The response carries no content that is declared base64 and decodes. *)
Definition undecodable (base64_utf8 : string -> outcome string)
    (resp : response) : Prop :=
  match resp with
  | Resolved (DataObject o) =>
      item_encoding o <> Some "base64"
      \/ match item_content o with
         | Some c => exists e, base64_utf8 c = Raise e
         | None => True
         end
  | _ => True
  end.

(** The diagnostic line of the [catch] of [getRepoContents]. *)
Definition contents_error (owner repo path : string) (e : error) : event :=
  ConsoleError ("Error getting repo contents for "
                ++ owner ++ "/" ++ repo ++ "/" ++ path ++ ":") (Some e).

(** The diagnostic line of the [catch] of [getFileContent]. *)
Definition content_error (owner repo path : string) (e : error) : event :=
  ConsoleError ("Error getting file content for "
                ++ owner ++ "/" ++ repo ++ "/" ++ path ++ ":") (Some e).

(** ** Directory trees, as the remote serves them *)

(** An entry of a listing, with its path: a file, a directory with its own
    listing, a directory whose listing call is rejected, or an entry of
    another type (a symlink, a submodule). *)
#[local] Unset Elimination Schemes.
Inductive node :=
| File (p : string)
| Dir (p : string) (children : list node)
| Broken (p : string) (e : error)
| Other (p : string).
#[local] Set Elimination Schemes.

Definition node_path (n : node) : string :=
  match n with
  | File p | Dir p _ | Broken p _ | Other p => p
  end.

(** The file paths of a tree in depth-first pre-order: a file is itself,
    a directory stands for the files of its listing, in order. *)
Fixpoint files (n : node) : list string :=
  match n with
  | File p => [p]
  | Dir _ children => flat_map files children
  | Broken _ _ => []
  | Other _ => []
  end.

Definition forest_files (cs : list node) : list string := flat_map files cs.

(** A file path is reachable from a listing: it is a file entry of the
    listing or reachable from the listing of one of its directories. *)
Inductive reachable : list node -> string -> Prop :=
| reach_here cs p : In (File p) cs -> reachable cs p
| reach_below cs d sub p :
    In (Dir d sub) cs -> reachable sub p -> reachable cs p.

(** The directory paths of a tree. *)
Fixpoint dirs (n : node) : list string :=
  match n with
  | Dir p children => p :: flat_map dirs children
  | Broken p _ => [p]
  | _ => []
  end.

(** The paths of the entries that are neither files nor directories. *)
Fixpoint others (n : node) : list string :=
  match n with
  | Dir _ children => flat_map others children
  | Other p => [p]
  | _ => []
  end.

(** Every path of a tree. *)
Fixpoint paths (n : node) : list string :=
  match n with
  | Dir p children => p :: flat_map paths children
  | _ => [node_path n]
  end.

(** Every entry of a tree with its kind, in pre-order. *)
Inductive kind := KFile | KDir | KOther.

Fixpoint tagged (n : node) : list (kind * string) :=
  match n with
  | File p => [(KFile, p)]
  | Dir p children => (KDir, p) :: flat_map tagged children
  | Broken p _ => [(KDir, p)]
  | Other p => [(KOther, p)]
  end.

(** The number of nested calls of [getAllFiles] an entry needs. *)
Fixpoint height (n : node) : nat :=
  match n with
  | Dir _ children => S (list_max (map height children))
  | Broken _ _ => 1
  | _ => 0
  end.

Definition forest_height (cs : list node) : nat := list_max (map height cs).

Definition as_file (p : string) : file :=
  {| file_path := p; file_type := "file" |}.

Definition forall2b {A B} (f : A -> B -> bool)
  : list A -> list B -> bool :=
  fix go (l1 : list A) (l2 : list B) {struct l2} : bool :=
    match l1, l2 with
    | [], [] => true
    | a :: l1', b :: l2' => f a b && go l1' l2'
    | _, _ => false
    end.

Section Trees.

Variable remote : string -> string -> string -> response.
Variables owner repo : string.

(** The remote answers with this entry, and below it with its subtree. *)
Fixpoint describes (it : item) (n : node) {struct n} : bool :=
  match n with
  | File p =>
      field_is (item_type it) "file" && (item_path it =? p)
  | Other p =>
      negb (field_is (item_type it) "file")
      && negb (field_is (item_type it) "dir") && (item_path it =? p)
  | Broken p e =>
      field_is (item_type it) "dir" && (item_path it =? p)
      && match remote owner repo p with
         | Rejected e' => (e' =? e)
         | _ => false
         end
  | Dir p children =>
      field_is (item_type it) "dir" && (item_path it =? p)
      && match remote owner repo p with
         | Resolved (DataArray items) => forall2b describes items children
         | _ => false
         end
  end.

(** The remote lists the directory [path] as the entries [cs]. *)
Definition serves (path : string) (cs : list node) : bool :=
  match remote owner repo path with
  | Resolved (DataArray items) => forall2b describes items cs
  | _ => false
  end.

(** The remote calls and diagnostics of the walk of an entry. *)
Fixpoint node_trace (n : node) : list event :=
  match n with
  | Dir p children => Call owner repo p :: flat_map node_trace children
  | Broken p e => [Call owner repo p; contents_error owner repo p e]
  | _ => []
  end.

Definition walk_trace (path : string) (cs : list node) : list event :=
  Call owner repo path :: flat_map node_trace cs.

(** The directories [getAllFiles] calls itself on, from [root]. *)
Inductive visited (root : string) : string -> Prop :=
| visited_root : visited root root
| visited_dir d it :
    visited root d ->
    In it (listing (remote owner repo d)) ->
    item_type it = Some "dir" ->
    visited root (item_path it).

(** A remote call of the walk is a call for a visited directory. *)
Definition call_visited (root : string) (ev : event) : Prop :=
  match ev with
  | Call o' r' p => o' = owner /\ r' = repo /\ visited root p
  | ConsoleError _ _ => True
  end.

(** A path that some visited listing gives with type exactly ['file']. *)
Definition file_entry (root p : string) : Prop :=
  exists d it,
    visited root d /\ In it (listing (remote owner repo d))
    /\ item_type it = Some "file" /\ item_path it = p.

(** A record of type ['file'] whose path is that of such an entry. *)
Definition from_file_entry (root : string) (f : file) : Prop :=
  file_type f = "file" /\ file_entry root (file_path f).

End Trees.

(** *** A failing listing *)

(** The remote, except that the call for [d] is rejected with [e]. *)
Definition inject (d : string) (e : error)
    (remote : string -> string -> string -> response)
  : string -> string -> string -> response :=
  fun owner repo path =>
    if (path =? d) then Rejected e else remote owner repo path.

(** The tree, with the directory [d] broken. *)
Fixpoint break (d : string) (e : error) (n : node) : node :=
  match n with
  | Dir p children =>
      if (p =? d) then Broken p e else Dir p (map (break d e) children)
  | Broken p e' => if (p =? d) then Broken p e else Broken p e'
  | _ => n
  end.

(** The files of a tree that are not below the directory [d]. *)
Fixpoint outside (d : string) (n : node) : list string :=
  match n with
  | File p => [p]
  | Dir p children => if (p =? d) then [] else flat_map (outside d) children
  | _ => []
  end.

(** *** Paths built from names *)

(** [strip pre s] is the rest of [s] after its prefix [pre]. *)
Fixpoint strip (pre s : string) : option string :=
  match pre with
  | EmptyString => Some s
  | String a pre' =>
      match s with
      | EmptyString => None
      | String b s' => if Ascii.eqb a b then strip pre' s' else None
      end
  end.

Fixpoint slash_free (s : string) : bool :=
  match s with
  | EmptyString => true
  | String a s' => negb (Ascii.eqb a "/") && slash_free s'
  end.

(** The path of the entry [name] of the directory [parent]. *)
Definition child (parent name : string) : string :=
  if (parent =? "") then name else parent ++ "/" ++ name.

(** What the paths of the entries of [parent] start with. *)
Definition dir_prefix (parent : string) : string :=
  if (parent =? "") then "" else parent ++ "/".

(** [p] is [child parent name] for a non-empty name without a slash. *)
Definition is_child (parent p : string) : bool :=
  match strip (dir_prefix parent) p with
  | Some name => negb (name =? "") && slash_free name
  | None => false
  end.

(** [x] is the path [q] or a path below the directory [q]. *)
Definition below (q x : string) : Prop :=
  x = q \/ exists rest, x = q ++ "/" ++ rest.

Fixpoint distinct (l : list string) : bool :=
  match l with
  | [] => true
  | x :: t => negb (existsb (String.eqb x) t) && distinct t
  end.

(** The entries of a directory have distinct names, and the path of each
    is the path of the directory followed by its name. *)
Fixpoint well_named (parent : string) (n : node) : bool :=
  is_child parent (node_path n)
  && match n with
     | Dir p children =>
         forallb (well_named p) children && distinct (map node_path children)
     | _ => true
     end.

Definition directory_tree (root : string) (cs : list node) : bool :=
  forallb (well_named root) cs && distinct (map node_path cs).

(** ** What the handlers compute from the walk *)

(** [x] occurs in [s]. *)
Definition substring (x s : string) : Prop := exists a b, s = a ++ x ++ b.

(** The records the content loop builds for a list of files. *)
Definition fetch_records
    (remote : string -> string -> string -> response)
    (base64_utf8 : string -> outcome string) (owner repo : string)
    (fs : list file) : list file_content :=
  map (fun f => {| fc_path := file_path f;
                   fc_content :=
                     fetched base64_utf8 (remote owner repo (file_path f)) |})
      (filter (fun f => (file_type f =? "file")) fs).

Definition context_header (owner repo : string) : string :=
  "Repository Context for " ++ owner ++ "/" ++ repo ++ ":" ++ JS.nl ++ JS.nl.

Definition structure_header (owner repo : string) : string :=
  "Repository Structure for " ++ owner ++ "/" ++ repo ++ ":"
  ++ JS.nl ++ JS.nl.

Definition could_not_retrieve (owner repo path : string) : string :=
  "Could not retrieve content for " ++ path ++ " in " ++ owner ++ "/" ++ repo.

Definition fenced (path content : string) : string :=
  "File: " ++ path ++ JS.nl ++ JS.nl ++ fence ++ JS.nl
  ++ content ++ JS.nl ++ fence.

(** A computation that did not raise. *)
Definition no_raise {A} (m : M A) : Prop :=
  match m with
  | Some (Raise _, _) => False
  | _ => True
  end.

(** The order of the default [sort]: unit by unit, a prefix first. *)
Definition lex_le (a b : string) : Prop := String.leb a b = true.

(** ** The final segment of a path *)

Fixpoint dot_free (s : string) : bool :=
  match s with
  | EmptyString => true
  | String a s' => negb (Ascii.eqb a ".") && dot_free s'
  end.

(** [e] is what follows the last dot of [s], or all of [s] when it has
    no dot. *)
Definition final_segment (s e : string) : Prop :=
  dot_free e = true /\ (s = e \/ exists pre, s = pre ++ "." ++ e).

(** The extension the filter computes. *)
Definition extension (path : string) : string :=
  JS.or_empty (JS.pop (JS.split "." path)).

(** ** Sample data *)

Module Sample.

(** A base64 decoder over the standard alphabet, to run the program on
    concrete answers: characters outside the alphabet are skipped and the
    padding ends the input. *)
Definition sextet (c : ascii) : option N :=
  let n := N_of_ascii c in
  if ((65 <=? n) && (n <=? 90))%N then Some (n - 65)%N
  else if ((97 <=? n) && (n <=? 122))%N then Some (n - 71)%N
  else if ((48 <=? n) && (n <=? 57))%N then Some (n + 4)%N
  else if (n =? 43)%N then Some 62%N
  else if (n =? 47)%N then Some 63%N
  else None.

Fixpoint sextets (s : string) : list N :=
  match s with
  | EmptyString => []
  | String c s' =>
      if Ascii.eqb c "=" then []
      else match sextet c with
           | Some v => v :: sextets s'
           | None => sextets s'
           end
  end.

Definition byte (n : N) : ascii := ascii_of_N (n mod 256).

Fixpoint octets (l : list N) : string :=
  match l with
  | a :: b :: c :: d :: rest =>
      String (byte (a * 4 + b / 16))
        (String (byte (b * 16 + c / 4))
           (String (byte (c * 64 + d)) (octets rest)))
  | [a; b; c] =>
      String (byte (a * 4 + b / 16))
        (String (byte (b * 16 + c / 4)) EmptyString)
  | [a; b] => String (byte (a * 4 + b / 16)) EmptyString
  | _ => EmptyString
  end.

Definition base64 (s : string) : string := octets (sextets s).

(** The decoder as the program takes it; this one never throws. *)
Definition decode (s : string) : outcome string := Ret (base64 s).

Definition entry (ty path : string) : item :=
  {| item_type := Some ty; item_path := path;
     item_content := None; item_encoding := None |}.

Definition blob (path content : string) : response :=
  Resolved (DataObject {| item_type := Some "file"; item_path := path;
                          item_content := Some content;
                          item_encoding := Some "base64" |}).

(** The repository of the scenario of the specification, with a symlink,
    an empty file and a file that is not served as base64. *)
Definition remote (owner repo path : string) : response :=
  if negb ((owner =? "acme") && (repo =? "demo")) then Rejected "Not Found"
  else if (path =? "") then
    Resolved (DataArray [entry "dir" "src"; entry "dir" "node_modules";
                         entry "file" "README.md"; entry "symlink" "latest";
                         entry "file" "LICENSE"; entry "file" "empty.txt"])
  else if (path =? "src") then
    Resolved (DataArray [entry "file" "src/a.ts"; entry "file" "src/b.js"])
  else if (path =? "node_modules") then
    Resolved (DataArray [entry "file" "node_modules/c.js"])
  else if (path =? "README.md") then blob "README.md" "IyBkZW1v"
  else if (path =? "src/a.ts") then blob "src/a.ts" "bGV0IGE="
  else if (path =? "src/b.js") then blob "src/b.js" "dmFyIGI="
  else if (path =? "node_modules/c.js") then blob "node_modules/c.js" "Yw=="
  else if (path =? "empty.txt") then blob "empty.txt" ""
  else if (path =? "LICENSE") then
    Resolved (DataObject {| item_type := Some "file"; item_path := "LICENSE";
                            item_content := Some "MIT";
                            item_encoding := Some "none" |})
  else Rejected "Not Found".

(** A request with every optional parameter left out. *)
Definition args : context_args :=
  {| owner := "acme"; repo := "demo"; maxFiles := None;
     fileExtensions := None; excludePaths := None |}.

(** The sample repository with the entries of each listing in another
    order. *)
Definition reordered (owner repo path : string) : response :=
  if negb ((owner =? "acme") && (repo =? "demo")) then Rejected "Not Found"
  else if (path =? "") then
    Resolved (DataArray [entry "file" "empty.txt"; entry "file" "LICENSE";
                         entry "dir" "node_modules"; entry "symlink" "latest";
                         entry "file" "README.md"; entry "dir" "src"])
  else if (path =? "src") then
    Resolved (DataArray [entry "file" "src/b.js"; entry "file" "src/a.ts"])
  else remote owner repo path.

(** A remote that describes every path as a directory entry of itself. *)
Definition cyclic (owner repo path : string) : response :=
  Resolved (DataObject (entry "dir" path)).

Definition tree : list node :=
  [Dir "src" [File "src/a.ts"; File "src/b.js"];
   Dir "node_modules" [File "node_modules/c.js"];
   File "README.md"; Other "latest"; File "LICENSE"; File "empty.txt"].

End Sample.

(** ** The files that pass the criteria *)

(** A path passes the criteria: no element of [excludePaths] occurs in it
    and, when extensions are listed, what follows its last dot (the whole
    path when it has no dot) is one of them. *)
Definition passes (excludePaths fileExtensions : list string)
    (path : string) : Prop :=
  (forall x, In x excludePaths -> ~ substring x path)
  /\ (fileExtensions = []
      \/ exists e, In e fileExtensions /\ final_segment path e).

(** [sieve P l l']: [l'] holds the elements of [l] that satisfy [P], in
    the order of [l]. *)
Inductive sieve {A : Type} (P : A -> Prop) : list A -> list A -> Prop :=
| sieve_nil : sieve P [] []
| sieve_keep x l l' : P x -> sieve P l l' -> sieve P (x :: l) (x :: l')
| sieve_drop x l l' : ~ P x -> sieve P l l' -> sieve P (x :: l) l'.

(** ** Traces *)

(** The paths of the remote calls of a trace, in order. *)
Definition called_paths (t : list event) : list string :=
  flat_map (fun ev => match ev with
                      | Call _ _ p => [p]
                      | ConsoleError _ _ => []
                      end) t.

(** The lines that the program writes to the diagnostic channel, as a
    trace records them, in order. *)
Definition diagnostics (t : list event) : list event :=
  flat_map (fun ev => match ev with
                      | Call _ _ _ => []
                      | ConsoleError _ _ => [ev]
                      end) t.

(** The diagnostic lines that the rejected listings among [ps] cause. *)
Definition listing_failures
    (remote : string -> string -> string -> response)
    (owner repo : string) (ps : list string) : list event :=
  flat_map (fun p => match remote owner repo p with
                     | Rejected e => [contents_error owner repo p e]
                     | Resolved _ => []
                     end) ps.

(** The events of the content loop over a list of files: one call for
    each record of type ['file'], followed by the line of the [catch] of
    [getFileContent] when it catches. *)
Definition fetch_trace
    (remote : string -> string -> string -> response)
    (base64_utf8 : string -> outcome string) (owner repo : string)
    (fs : list file) : list event :=
  flat_map
    (fun f =>
       if (file_type f =? "file") then
         Call owner repo (file_path f)
         :: match fetch_failure base64_utf8
                    (remote owner repo (file_path f)) with
            | Some e => [content_error owner repo (file_path f) e]
            | None => []
            end
       else []) fs.

(** The blocks of get-repo-context for a list of files: for each file
    whose content is fetched, what get-file-content puts in its answer,
    followed by an empty line. *)
Definition rendered_blocks
    (remote : string -> string -> string -> response)
    (base64_utf8 : string -> outcome string) (owner repo : string)
    (fs : list file) : list string :=
  flat_map
    (fun f =>
       match fetched base64_utf8 (remote owner repo (file_path f)) with
       | Some c => [fenced (file_path f) c ++ JS.nl ++ JS.nl]
       | None => []
       end) fs.

(** The three progress lines of get-repo-context. *)
Definition fetching_line (owner repo : string) : event :=
  ConsoleError ("Fetching files from " ++ owner ++ "/" ++ repo ++ "...") None.

Definition found_line (n : nat) : event :=
  ConsoleError ("Found " ++ JS.of_nat n ++ " total files in the repository")
               None.

Definition selected_line (n : nat) : event :=
  ConsoleError ("Selected " ++ JS.of_nat n ++ " files after filtering") None.

(** * Properties *)

(** ** Runs on the sample repository *)

Example includes_ex :
  JS.includes "src/node_modules/x.js" "node_modules" = true.
Proof. reflexivity. Qed.

Example split_ex : JS.split "." "a.tar.gz" = ["a"; "tar"; "gz"].
Proof. reflexivity. Qed.

Example sort_ex :
  JS.sort ["src/a.ts"; "README.md"; "node_modules/c.js"]
  = ["README.md"; "node_modules/c.js"; "src/a.ts"].
Proof. reflexivity. Qed.

Example of_nat_ex : JS.of_nat 0 = "0" /\ JS.of_nat 42 = "42".
Proof. split; reflexivity. Qed.

Example base64_ex : Sample.base64 "bGV0IGE=" = "let a".
Proof. reflexivity. Qed.

Example walk_ex :
  getAllFiles Sample.remote 2 "acme" "demo" ""
  = Some (Ret (map as_file ["src/a.ts"; "src/b.js"; "node_modules/c.js";
                            "README.md"; "LICENSE"; "empty.txt"]),
          [Call "acme" "demo" ""; Call "acme" "demo" "src";
           Call "acme" "demo" "node_modules"]).
Proof. reflexivity. Qed.

Example walk_out_of_fuel_ex : getAllFiles Sample.remote 1 "acme" "demo" "" = None.
Proof. reflexivity. Qed.

Example sample_served :
  serves Sample.remote "acme" "demo" "" Sample.tree = true
  /\ directory_tree "" Sample.tree = true.
Proof. split; reflexivity. Qed.

(** ** Strings *)

Lemma append_empty_r (s : string) : s ++ "" = s.
Proof. induction s; simpl; congruence. Qed.

Lemma append_assoc (a b c : string) : (a ++ b) ++ c = a ++ b ++ c.
Proof. induction a; simpl; congruence. Qed.

Lemma append_inv_l (a b c : string) : a ++ b = a ++ c -> b = c.
Proof. induction a; simpl; intros H; [assumption | injection H; auto]. Qed.

Lemma prefix_iff (sub s : string) :
  prefix sub s = true <-> exists b, s = sub ++ b.
Proof.
  revert s; induction sub as [|a sub IH]; intros [|c s]; simpl.
  - split; eauto.
  - split; eauto.
  - split; [discriminate | intros [b Hb]; discriminate].
  - destruct (ascii_dec a c) as [->|Hne].
    + rewrite IH. split; intros [b Hb]; exists b.
      * now rewrite Hb.
      * now injection Hb.
    + split; [discriminate | intros [b Hb]].
      injection Hb as Hc _. congruence.
Qed.

(** [includes] is the substring test. *)
Lemma includes_iff (s sub : string) :
  JS.includes s sub = true <-> exists a b, s = a ++ sub ++ b.
Proof.
  induction s as [|c s IH].
  - unfold JS.includes. rewrite orb_false_r, prefix_iff. split.
    + intros [b Hb]. now exists "", b.
    + intros [a [b Hab]]. destruct a; [|discriminate]. now exists b.
  - change (JS.includes (String c s) sub)
      with (prefix sub (String c s) || JS.includes s sub).
    rewrite orb_true_iff, prefix_iff, IH. split.
    + intros [[b Hb] | [a [b Hab]]].
      * now exists "", b.
      * exists (String c a), b. simpl. now rewrite Hab.
    + intros [a [b Hab]]. destruct a as [|c' a]; simpl in Hab.
      * left. now exists b.
      * right. injection Hab as _ Hs. now exists a, b.
Qed.

Lemma strip_iff (pre s r : string) : strip pre s = Some r <-> s = pre ++ r.
Proof.
  revert s; induction pre as [|a pre IH]; intros s; simpl.
  - split; congruence.
  - destruct s as [|b s]; [split; discriminate|].
    destruct (Ascii.eqb_spec a b) as [->|Hne].
    + rewrite IH. split; intros H; [now rewrite H | now injection H].
    + split; [discriminate | intros H; injection H; congruence].
Qed.

(** ** The final segment of a path *)

Lemma split_nonempty (c : ascii) (s : string) : JS.split c s <> [].
Proof.
  induction s as [|a s IH]; simpl; [discriminate|].
  destruct (Ascii.eqb a c); [discriminate|].
  destruct (JS.split c s); discriminate.
Qed.

Lemma pop_cons (x : string) (l : list string) :
  l <> [] -> JS.pop (x :: l) = JS.pop l.
Proof. destruct l; [congruence | reflexivity]. Qed.

Lemma or_empty_some (s : string) : JS.or_empty (Some s) = s.
Proof.
  unfold JS.or_empty. destruct (String.eqb_spec s ""); congruence.
Qed.

Lemma split_dot_free (e : string) :
  dot_free e = true -> JS.split "." e = [e].
Proof.
  induction e as [|b e IH]; simpl; [reflexivity|].
  intros H. apply andb_true_iff in H as [Hb He].
  destruct (Ascii.eqb b "."); [discriminate|]. now rewrite IH.
Qed.

Lemma split_dotted (pre e : string) :
  exists h h' t, JS.split "." (pre ++ "." ++ e) = h :: h' :: t.
Proof.
  induction pre as [|b pre (h & h' & t & IH)]; simpl.
  - destruct (JS.split "." e) as [|g u] eqn:E.
    + now apply split_nonempty in E.
    + now exists "", g, u.
  - simpl in IH. rewrite IH. destruct (Ascii.eqb b ".").
    + now exists "", h, (h' :: t).
    + now exists (String b h), h', t.
Qed.

Lemma split_pop (s : string) :
  exists e, JS.pop (JS.split "." s) = Some e /\ final_segment s e.
Proof.
  induction s as [|a s (e & He & Hfree & Hs)]; simpl.
  - exists "". repeat split. now left.
  - destruct (Ascii.eqb_spec a ".") as [->|Hne].
    + rewrite pop_cons by apply split_nonempty.
      exists e. repeat split; trivial. right.
      destruct Hs as [->|[pre ->]]; [now exists "" | now exists (String "." pre)].
    + destruct Hs as [->|[pre ->]].
      * rewrite split_dot_free by assumption.
        exists (String a e). split; [reflexivity|]. split; [|now left].
        simpl. rewrite Hfree. now destruct (Ascii.eqb_spec a ".").
      * destruct (split_dotted pre e) as (h & h' & t & E).
        rewrite E in *.
        exists e. repeat split; trivial. right. now exists (String a pre).
Qed.

Lemma extension_final (path : string) : final_segment path (extension path).
Proof.
  unfold extension. destruct (split_pop path) as (e & -> & H).
  now rewrite or_empty_some.
Qed.

Lemma dot_free_app (a b : string) :
  dot_free (a ++ b) = dot_free a && dot_free b.
Proof. induction a; simpl; [reflexivity|]. now rewrite IHa, andb_assoc. Qed.

Lemma dot_free_suffix (a b c d : string) :
  dot_free b = true -> dot_free d = true ->
  a ++ "." ++ b = c ++ "." ++ d -> b = d.
Proof.
  intros Hb Hd. revert c. induction a as [|x a IH]; intros c H.
  - destruct c as [|y c]; simpl in H.
    + now injection H.
    + injection H as <- H. rewrite H, dot_free_app in Hb. simpl in Hb.
      rewrite andb_false_r in Hb. discriminate.
  - destruct c as [|y c]; simpl in H.
    + injection H as -> H. rewrite <- H, dot_free_app in Hd. simpl in Hd.
      rewrite andb_false_r in Hd. discriminate.
    + injection H as _ H. eauto.
Qed.

(** The final segment is unique. *)
Lemma final_segment_unique (s e e' : string) :
  final_segment s e -> final_segment s e' -> e = e'.
Proof.
  intros [He [->|[pre ->]]] [He' [H|[pre' H]]].
  - congruence.
  - rewrite H, dot_free_app in He. simpl in He.
    rewrite andb_false_r in He. discriminate.
  - rewrite <- H, dot_free_app in He'. simpl in He'.
    rewrite andb_false_r in He'. discriminate.
  - eapply dot_free_suffix; eauto.
Qed.

(** ** Induction on trees *)

Lemma node_induction (P : node -> Prop) :
  (forall p, P (File p)) ->
  (forall p cs, Forall P cs -> P (Dir p cs)) ->
  (forall p e, P (Broken p e)) ->
  (forall p, P (Other p)) ->
  forall n, P n.
Proof.
  intros HF HD HB HO. fix IH 1.
  intros [p|p cs|p e|p]; [apply HF | | apply HB | apply HO].
  apply HD. induction cs as [|c cs IHcs]; constructor; [apply IH | apply IHcs].
Qed.

Lemma forall2b_cons_r {A B} (f : A -> B -> bool) (l : list A) (b : B)
    (l2 : list B) :
  forall2b f l (b :: l2) = true ->
  exists a l1, l = a :: l1 /\ f a b = true /\ forall2b f l1 l2 = true.
Proof.
  destruct l as [|a l1]; simpl; [discriminate|].
  intros H. apply andb_true_iff in H. now exists a, l1.
Qed.

Lemma forall2b_nil_r {A B} (f : A -> B -> bool) (l : list A) :
  forall2b f l [] = true -> l = [].
Proof. destruct l; simpl; [reflexivity | discriminate]. Qed.

Lemma field_is_true (x : option string) (s : string) :
  field_is x s = true <-> x = Some s.
Proof.
  destruct x as [v|]; simpl; [|split; discriminate].
  rewrite String.eqb_eq. split; congruence.
Qed.

(** ** The remote functions never raise *)

Section Remote.

Variable remote : string -> string -> string -> response.
Variable base64_utf8 : string -> outcome string.
Variables o r : string.

Lemma getRepoContents_value (p : string) :
  getRepoContents remote o r p
  = Some (Ret (listing (remote o r p)),
          Call o r p :: match remote o r p with
                        | Rejected e => [contents_error o r p e]
                        | _ => []
                        end).
Proof.
  unfold getRepoContents, getContent.
  destruct (remote o r p) as [[items|it|]|e]; simpl; try reflexivity.
  destruct (item_type it); reflexivity.
Qed.

Lemma getFileContent_value (p : string) :
  getFileContent remote base64_utf8 o r p
  = Some (Ret (fetched base64_utf8 (remote o r p)),
          Call o r p :: match fetch_failure base64_utf8 (remote o r p) with
                        | Some e => [content_error o r p e]
                        | None => []
                        end).
Proof.
  unfold getFileContent, getContent.
  destruct (remote o r p) as [[items|it|]|e]; simpl; try reflexivity.
  destruct (item_content it) as [c|], (item_encoding it) as [enc|];
    try reflexivity.
  destruct (enc =? "base64"); [|reflexivity].
  destruct (base64_utf8 c); reflexivity.
Qed.

(** ** The walk of a served tree *)

Lemma serves_inv (p : string) (cs : list node) :
  serves remote o r p cs = true ->
  exists items,
    remote o r p = Resolved (DataArray items)
    /\ forall2b (describes remote o r) items cs = true.
Proof.
  unfold serves. destruct (remote o r p) as [[items| |]|]; try discriminate.
  intros H. now exists items.
Qed.

Lemma describes_dir (it : item) (p : string) (sub : list node) :
  describes remote o r it (Dir p sub) = true ->
  item_type it = Some "dir" /\ item_path it = p
  /\ serves remote o r p sub = true.
Proof.
  simpl. intros H. apply andb_true_iff in H as [H H3].
  apply andb_true_iff in H as [H1 H2].
  apply field_is_true in H1. apply String.eqb_eq in H2. now repeat split.
Qed.

Lemma step_file (recur : string -> M (list file)) (it : item)
    (acc : list file) :
  item_type it = Some "file" ->
  getAllFiles_step recur it acc
  = Some (Ret (acc ++ [as_file (item_path it)])%list, []).
Proof. unfold getAllFiles_step. now intros ->. Qed.

Lemma step_dir (recur : string -> M (list file)) (it : item)
    (acc : list file) :
  item_type it = Some "dir" ->
  getAllFiles_step recur it acc
  = (subFiles <- recur (item_path it) ;; ret (acc ++ subFiles)%list)%js.
Proof. unfold getAllFiles_step. now intros ->. Qed.

Lemma step_other (recur : string -> M (list file)) (it : item)
    (acc : list file) :
  field_is (item_type it) "file" = false ->
  field_is (item_type it) "dir" = false ->
  getAllFiles_step recur it acc = Some (Ret acc, []).
Proof. unfold getAllFiles_step. now intros -> ->. Qed.

Lemma walk_loop (fuel : nat) :
  (forall p cs, forest_height cs < fuel -> serves remote o r p cs = true ->
     getAllFiles remote fuel o r p
     = Some (Ret (map as_file (forest_files cs)), walk_trace o r p cs)) ->
  forall cs items acc,
    forall2b (describes remote o r) items cs = true ->
    Forall (fun n => height n <= fuel) cs ->
    for_of items (getAllFiles_step (getAllFiles remote fuel o r)) acc
    = Some (Ret (acc ++ map as_file (forest_files cs))%list,
            flat_map (node_trace o r) cs).
Proof.
  intros IH. induction cs as [|c cs IHcs]; intros items acc Hd Hh.
  - apply forall2b_nil_r in Hd as ->. simpl. now rewrite app_nil_r.
  - apply forall2b_cons_r in Hd as (it & items' & -> & Hc & Hd).
    inversion Hh as [|? ? Hc_h Hrest]; subst.
    unfold forest_files. simpl flat_map. simpl for_of.
    rewrite map_app, app_assoc.
    destruct c as [q|q sub|q e|q].
    + simpl in Hc. apply andb_true_iff in Hc as [Ht Hp].
      apply field_is_true in Ht. apply String.eqb_eq in Hp.
      rewrite (step_file _ _ _ Ht), Hp. simpl bind.
      now rewrite (IHcs items' _ Hd Hrest).
    + apply describes_dir in Hc as (Ht & Hp & Hs).
      rewrite (step_dir _ _ _ Ht), Hp.
      simpl in Hc_h.
      rewrite (IH q sub) by (unfold forest_height; lia || assumption).
      simpl bind. rewrite (IHcs items' _ Hd Hrest).
      simpl. now rewrite app_nil_r.
    + simpl in Hc. apply andb_true_iff in Hc as [Hc He].
      apply andb_true_iff in Hc as [Ht Hp].
      apply field_is_true in Ht. apply String.eqb_eq in Hp.
      rewrite (step_dir _ _ _ Ht), Hp.
      simpl in Hc_h. destruct fuel as [|fuel']; [lia|].
      simpl getAllFiles. rewrite getRepoContents_value.
      destruct (remote o r q) as [|e']; [discriminate|].
      apply String.eqb_eq in He. subst e'. simpl bind.
      rewrite (IHcs items' _ Hd Hrest). simpl. now rewrite !app_nil_r.
    + simpl in Hc. apply andb_true_iff in Hc as [Hc Hp].
      apply andb_true_iff in Hc as [Ht1 Ht2].
      apply negb_true_iff in Ht1, Ht2.
      rewrite (step_other _ _ _ Ht1 Ht2). simpl bind.
      rewrite (IHcs items' _ Hd Hrest). simpl. now rewrite app_nil_r.
Qed.

(** With fuel above the height of the tree, the walk returns the files of
    the tree in pre-order, after one call per directory. *)
Lemma walk_served (fuel : nat) (p : string) (cs : list node) :
  forest_height cs < fuel ->
  serves remote o r p cs = true ->
  getAllFiles remote fuel o r p
  = Some (Ret (map as_file (forest_files cs)), walk_trace o r p cs).
Proof.
  revert p cs. induction fuel as [|fuel IH]; intros p cs Hh Hs; [lia|].
  destruct (serves_inv _ _ Hs) as (items & Hr & Hd).
  simpl getAllFiles. rewrite getRepoContents_value, Hr. simpl listing.
  pose proof (walk_loop fuel IH) as Hloop.
  simpl bind at 1.
  rewrite (Hloop cs items [] Hd).
  - reflexivity.
  - apply Forall_forall. intros n Hn.
    assert (height n <= forest_height cs); [|lia].
    unfold forest_height.
    assert (Hle : list_max (map height cs) <= list_max (map height cs)) by lia.
    apply list_max_le in Hle. rewrite Forall_forall in Hle.
    apply Hle. now apply in_map.
Qed.

End Remote.

(** ** The paths of a directory tree are distinct *)

Lemma is_child_iff (parent p : string) :
  is_child parent p = true
  <-> exists name,
        name <> "" /\ slash_free name = true /\ p = child parent name.
Proof.
  unfold is_child, child, dir_prefix. split.
  - destruct (strip _ p) as [name|] eqn:E; [|discriminate].
    apply strip_iff in E. intros H. apply andb_true_iff in H as [Hn Hs].
    apply negb_true_iff, String.eqb_neq in Hn. exists name.
    repeat split; trivial.
    destruct (parent =? ""); [exact E | now rewrite <- append_assoc].
  - intros (name & Hn & Hs & ->).
    assert (E : strip (if parent =? "" then "" else parent ++ "/")
                      (if parent =? "" then name else parent ++ "/" ++ name)
                = Some name).
    { apply strip_iff. destruct (parent =? ""); [reflexivity|].
      now rewrite append_assoc. }
    rewrite E, Hs. apply String.eqb_neq in Hn. now rewrite Hn.
Qed.

Lemma is_child_inv (parent p : string) :
  is_child parent p = true ->
  exists name,
    p = dir_prefix parent ++ name /\ name <> "" /\ slash_free name = true.
Proof.
  unfold is_child. destruct (strip (dir_prefix parent) p) as [name|] eqn:E;
    [|discriminate].
  apply strip_iff in E. intros H. apply andb_true_iff in H as [Hn Hs].
  exists name. repeat split; trivial.
  apply negb_true_iff in Hn. now apply String.eqb_neq.
Qed.

Lemma child_nonempty (parent q : string) : is_child parent q = true -> q <> "".
Proof.
  intros H. apply is_child_inv in H as (name & -> & Hn & _).
  destruct (dir_prefix parent); simpl; [assumption | discriminate].
Qed.

Lemma append_cons_neq (q : string) (c : ascii) (s : string) :
  q ++ String c s <> q.
Proof.
  induction q as [|a q IH]; simpl; intros H.
  - discriminate.
  - injection H as H. auto.
Qed.

Lemma name_unique (n1 n2 s1 s2 : string) :
  slash_free n1 = true -> slash_free n2 = true ->
  (s1 = "" \/ exists r, s1 = "/" ++ r) ->
  (s2 = "" \/ exists r, s2 = "/" ++ r) ->
  n1 ++ s1 = n2 ++ s2 -> n1 = n2.
Proof.
  revert n2. induction n1 as [|a n1 IH]; intros [|b n2] H1 H2 T1 T2 E;
    simpl in *.
  - reflexivity.
  - apply andb_true_iff in H2 as [Hb _]. exfalso.
    destruct T1 as [->|[r ->]]; [discriminate|].
    injection E as <- _. discriminate.
  - apply andb_true_iff in H1 as [Ha _]. exfalso.
    destruct T2 as [->|[r ->]]; [discriminate|].
    injection E as -> _. discriminate.
  - apply andb_true_iff in H1 as [_ H1]. apply andb_true_iff in H2 as [_ H2].
    injection E as -> E. f_equal. eauto.
Qed.

Lemma below_tail (q x : string) :
  below q x -> exists s, x = q ++ s /\ (s = "" \/ exists r, s = "/" ++ r).
Proof.
  intros [->|[rest ->]].
  - exists "". rewrite append_empty_r. auto.
  - exists ("/" ++ rest). eauto.
Qed.

(** Two entries of one directory with a common path below them are one. *)
Lemma siblings_apart (parent q1 q2 x : string) :
  is_child parent q1 = true -> is_child parent q2 = true ->
  below q1 x -> below q2 x -> q1 = q2.
Proof.
  intros H1 H2 B1 B2.
  apply is_child_inv in H1 as (n1 & -> & _ & F1).
  apply is_child_inv in H2 as (n2 & -> & _ & F2).
  apply below_tail in B1 as (s1 & -> & T1).
  apply below_tail in B2 as (s2 & E & T2).
  rewrite !append_assoc in E. apply append_inv_l in E.
  now rewrite (name_unique n1 n2 s1 s2 F1 F2 T1 T2 E).
Qed.

Lemma below_child (q c x : string) :
  q <> "" -> is_child q c = true -> below c x ->
  exists rest, x = q ++ "/" ++ rest.
Proof.
  intros Hq Hc B. apply is_child_inv in Hc as (name & -> & _ & _).
  unfold dir_prefix in *. apply String.eqb_neq in Hq. rewrite Hq in *.
  destruct B as [->|[rest ->]].
  - exists name. now rewrite append_assoc.
  - exists (name ++ "/" ++ rest). now rewrite !append_assoc.
Qed.

Lemma well_named_child (parent : string) (n : node) :
  well_named parent n = true -> is_child parent (node_path n) = true.
Proof. destruct n; simpl; intros H; now apply andb_true_iff in H. Qed.

Lemma well_named_dir (parent q : string) (sub : list node) :
  well_named parent (Dir q sub) = true ->
  forallb (well_named q) sub = true /\ distinct (map node_path sub) = true.
Proof.
  simpl. intros H. apply andb_true_iff in H as [_ H].
  now apply andb_true_iff in H.
Qed.

(** Every path of a well-named entry is the entry or below it. *)
Lemma paths_below (n : node) :
  forall parent x,
    well_named parent n = true -> In x (paths n) -> below (node_path n) x.
Proof.
  induction n as [p|q sub IH|p e|p] using node_induction;
    intros parent x Hw Hx; simpl in Hx;
    try (destruct Hx as [<-|[]]; now left).
  destruct Hx as [<-|Hx]; [now left|]. right.
  apply in_flat_map in Hx as (c & Hc & Hx).
  pose proof (well_named_child _ _ Hw) as Hq. simpl in Hq.
  apply well_named_dir in Hw as [Hsub _].
  rewrite forallb_forall in Hsub. rewrite Forall_forall in IH.
  apply (below_child q (node_path c)).
  - eapply child_nonempty; eauto.
  - apply well_named_child. auto.
  - eapply IH; eauto.
Qed.

Lemma distinct_cons (x : string) (l : list string) :
  distinct (x :: l) = true -> ~ In x l /\ distinct l = true.
Proof.
  simpl. intros H. apply andb_true_iff in H as [H Hd]. split; trivial.
  intros Hin. apply negb_true_iff in H.
  assert (existsb (String.eqb x) l = true); [|congruence].
  apply existsb_exists. exists x. split; trivial. apply String.eqb_refl.
Qed.

(** The lists that [g] selects from the entries of one directory do not
    overlap. *)
Lemma forest_nodup (g : node -> list string) :
  (forall n x, In x (g n) -> In x (paths n)) ->
  forall parent cs,
    Forall (fun c => NoDup (g c)) cs ->
    forallb (well_named parent) cs = true ->
    distinct (map node_path cs) = true ->
    NoDup (flat_map g cs).
Proof.
  intros Hg parent. induction cs as [|c cs IH]; intros Hn Hw Hd; simpl.
  - constructor.
  - inversion Hn as [|? ? Hc Hcs]; subst.
    simpl in Hw. apply andb_true_iff in Hw as [Hwc Hw].
    simpl map in Hd. apply distinct_cons in Hd as [Hnot Hd].
    apply NoDup_app; auto.
    intros x Hx Hx'. apply in_flat_map in Hx' as (c' & Hc' & Hx').
    apply Hnot. rewrite forallb_forall in Hw.
    rewrite (siblings_apart parent (node_path c) (node_path c') x).
    + now apply in_map.
    + now apply well_named_child.
    + apply well_named_child. auto.
    + eapply paths_below; eauto.
    + eapply paths_below; eauto.
Qed.

Lemma paths_nodup (n : node) :
  forall parent, well_named parent n = true -> NoDup (paths n).
Proof.
  induction n as [p|q sub IH|p e|p] using node_induction; intros parent Hw;
    simpl; try (constructor; [intros [] | constructor]).
  pose proof (well_named_child _ _ Hw) as Hq. simpl in Hq.
  pose proof (well_named_dir _ _ _ Hw) as [Hsub Hd].
  constructor.
  - intros Hin. apply in_flat_map in Hin as (c & Hc & Hx).
    rewrite forallb_forall in Hsub.
    destruct (below_child q (node_path c) q) as [rest E].
    + eapply child_nonempty; eauto.
    + apply well_named_child; auto.
    + eapply paths_below; eauto.
    + symmetry in E. now apply append_cons_neq in E.
  - apply (forest_nodup paths) with (parent := q); auto.
    rewrite Forall_forall in *. intros c Hc. apply (IH c Hc q).
    rewrite forallb_forall in Hsub. auto.
Qed.

Lemma files_paths (n : node) (x : string) : In x (files n) -> In x (paths n).
Proof.
  induction n as [p|q sub IH|p e|p] using node_induction; simpl; auto.
  intros H. right. apply in_flat_map in H as (c & Hc & Hx).
  apply in_flat_map. exists c. rewrite Forall_forall in IH. auto.
Qed.

Lemma files_nodup (n : node) :
  forall parent, well_named parent n = true -> NoDup (files n).
Proof.
  induction n as [p|q sub IH|p e|p] using node_induction; intros parent Hw;
    simpl; try constructor; try (intros []); try constructor.
  pose proof (well_named_dir _ _ _ Hw) as [Hsub Hd].
  apply (forest_nodup files files_paths) with (parent := q); auto.
  rewrite Forall_forall in *. intros c Hc. apply (IH c Hc q).
  rewrite forallb_forall in Hsub. auto.
Qed.

Lemma directory_tree_inv (root : string) (cs : list node) :
  directory_tree root cs = true ->
  forallb (well_named root) cs = true /\ distinct (map node_path cs) = true.
Proof. unfold directory_tree. intros H. now apply andb_true_iff in H. Qed.

(** No file path of a directory tree occurs twice. *)
Lemma forest_files_nodup (root : string) (cs : list node) :
  directory_tree root cs = true -> NoDup (forest_files cs).
Proof.
  intros H. apply directory_tree_inv in H as [Hw Hd].
  apply (forest_nodup files files_paths) with (parent := root); auto.
  apply Forall_forall. intros c Hc. apply (files_nodup c root).
  rewrite forallb_forall in Hw. auto.
Qed.

(** No path of a directory tree occurs twice, whatever its kind. *)
Lemma forest_paths_nodup (root : string) (cs : list node) :
  directory_tree root cs = true -> NoDup (flat_map paths cs).
Proof.
  intros H. apply directory_tree_inv in H as [Hw Hd].
  apply (forest_nodup paths) with (parent := root); auto.
  apply Forall_forall. intros c Hc. apply (paths_nodup c root).
  rewrite forallb_forall in Hw. auto.
Qed.

(** ** Files, directories and other entries do not share paths *)

Lemma map_flat_map {A B C} (f : B -> C) (g : A -> list B) (l : list A) :
  map f (flat_map g l) = flat_map (fun x => map f (g x)) l.
Proof.
  induction l as [|a l IH]; simpl; [reflexivity|].
  now rewrite map_app, IH.
Qed.

Lemma flat_map_Forall_ext {A B} (f g : A -> list B) (l : list A) :
  Forall (fun x => f x = g x) l -> flat_map f l = flat_map g l.
Proof. induction 1; simpl; congruence. Qed.

Lemma tagged_paths (n : node) : map snd (tagged n) = paths n.
Proof.
  induction n as [p|q sub IH|p e|p] using node_induction; simpl; trivial.
  f_equal. rewrite map_flat_map. now apply flat_map_Forall_ext.
Qed.

Lemma in_flat_map_iff {A B C} (f : A -> list B) (g : A -> list C)
    (x : B) (y : C) (l : list A) :
  Forall (fun c => In x (f c) <-> In y (g c)) l ->
  In x (flat_map f l) <-> In y (flat_map g l).
Proof.
  intros H. rewrite Forall_forall in H. rewrite !in_flat_map.
  split; intros (c & Hc & Hx); exists c; split; trivial; now apply (H c).
Qed.

Lemma files_tagged (n : node) (p : string) :
  In p (files n) <-> In (KFile, p) (tagged n).
Proof.
  induction n as [p'|q sub IH|p' e|p'] using node_induction; simpl.
  - split; intros [H|[]]; left; congruence.
  - rewrite (in_flat_map_iff files tagged p (KFile, p) sub IH).
    split; [auto | intros [H|H]; [discriminate | assumption]].
  - split; [intros [] | intros [H|[]]; discriminate].
  - split; [intros [] | intros [H|[]]; discriminate].
Qed.

Lemma dirs_tagged (n : node) (p : string) :
  In p (dirs n) <-> In (KDir, p) (tagged n).
Proof.
  induction n as [p'|q sub IH|p' e|p'] using node_induction; simpl.
  - split; [intros [] | intros [H|[]]; discriminate].
  - rewrite (in_flat_map_iff dirs tagged p (KDir, p) sub IH).
    split; intros [H|H]; auto; left; congruence.
  - split; intros [H|[]]; left; congruence.
  - split; [intros [] | intros [H|[]]; discriminate].
Qed.

Lemma others_tagged (n : node) (p : string) :
  In p (others n) <-> In (KOther, p) (tagged n).
Proof.
  induction n as [p'|q sub IH|p' e|p'] using node_induction; simpl.
  - split; [intros [] | intros [H|[]]; discriminate].
  - rewrite (in_flat_map_iff others tagged p (KOther, p) sub IH).
    split; [auto | intros [H|H]; [discriminate | assumption]].
  - split; [intros [] | intros [H|[]]; discriminate].
  - split; intros [H|[]]; left; congruence.
Qed.

Lemma one_kind (l : list (kind * string)) (a b : kind) (p : string) :
  NoDup (map snd l) -> In (a, p) l -> In (b, p) l -> a = b.
Proof.
  induction l as [|[k q] l IH]; simpl; intros Hn Ha Hb; [contradiction|].
  inversion Hn as [|? ? Hq Hl]; subst.
  destruct Ha as [Ha|Ha], Hb as [Hb|Hb]; try congruence; auto.
  - injection Ha as -> ->. exfalso. apply Hq.
    change p with (snd (b, p)). now apply in_map.
  - injection Hb as -> ->. exfalso. apply Hq.
    change p with (snd (a, p)). now apply in_map.
Qed.

Lemma forest_tagged_nodup (root : string) (cs : list node) :
  directory_tree root cs = true -> NoDup (map snd (flat_map tagged cs)).
Proof.
  intros H. rewrite map_flat_map.
  rewrite (flat_map_Forall_ext _ paths).
  - now apply forest_paths_nodup with (root := root).
  - apply Forall_forall. intros c _. apply tagged_paths.
Qed.

(** In a directory tree a file path is not also the path of a directory
    or of an entry of another type. *)
Lemma files_only (root : string) (cs : list node) (p : string) :
  directory_tree root cs = true ->
  In p (forest_files cs) ->
  ~ In p (flat_map dirs cs) /\ ~ In p (flat_map others cs).
Proof.
  intros Ht Hf. pose proof (forest_tagged_nodup root cs Ht) as Hn.
  assert (HF : In (KFile, p) (flat_map tagged cs)).
  { unfold forest_files in Hf. apply in_flat_map in Hf as (c & Hc & Hf).
    apply in_flat_map. exists c. split; trivial. now apply files_tagged. }
  split; intros H; apply in_flat_map in H as (c & Hc & H).
  - assert (HD : In (KDir, p) (flat_map tagged cs)).
    { apply in_flat_map. exists c. split; trivial. now apply dirs_tagged. }
    pose proof (one_kind _ _ _ _ Hn HF HD). discriminate.
  - assert (HO : In (KOther, p) (flat_map tagged cs)).
    { apply in_flat_map. exists c. split; trivial. now apply others_tagged. }
    pose proof (one_kind _ _ _ _ Hn HF HO). discriminate.
Qed.

(** The walk of a directory tree returns no path of an entry that is
    neither a file nor a directory. *)
Lemma other_entries_absent
    (remote : string -> string -> string -> response)
    (o r root : string) (cs : list node) (fuel : nat) (q : string) :
  serves remote o r root cs = true ->
  directory_tree root cs = true ->
  forest_height cs < fuel ->
  In q (flat_map others cs) ->
  exists out t,
    getAllFiles remote fuel o r root = Some (Ret out, t)
    /\ ~ In q (map file_path out).
Proof.
  intros Hs Ht Hh Hq.
  exists (map as_file (forest_files cs)), (walk_trace o r root cs).
  split; [now apply walk_served|].
  rewrite map_map. simpl. rewrite map_id. intros Hf.
  now destruct (files_only root cs q Ht Hf) as [_ H].
Qed.

(** ** The files of a tree are the reachable ones *)

Lemma files_reachable (n : node) (p : string) :
  In p (files n) ->
  n = File p \/ exists d sub, n = Dir d sub /\ reachable sub p.
Proof.
  induction n as [p'|q sub IH|p' e|p'] using node_induction; simpl;
    try contradiction.
  - intros [->|[]]. now left.
  - intros H. right. exists q, sub. split; trivial.
    apply in_flat_map in H as (c & Hc & H).
    rewrite Forall_forall in IH.
    destruct (IH c Hc H) as [->|(d & sub' & -> & Hr)].
    + now apply reach_here.
    + now apply reach_below with d sub'.
Qed.

Lemma reachable_iff (cs : list node) (p : string) :
  reachable cs p <-> In p (forest_files cs).
Proof.
  unfold forest_files. split.
  - induction 1 as [cs p H|cs d sub p H _ IH]; apply in_flat_map.
    + exists (File p). split; trivial. now left.
    + exists (Dir d sub). split; trivial.
  - intros H. apply in_flat_map in H as (c & Hc & H).
    destruct (files_reachable c p H) as [->|(d & sub & -> & Hr)].
    + now apply reach_here.
    + now apply reach_below with d sub.
Qed.

Lemma map_path_as_file (l : list string) : map file_path (map as_file l) = l.
Proof. induction l; simpl; congruence. Qed.

(** ** C1 *)

(** C1. For every directory tree that the remote serves from the root, the
    walk, given fuel above the height of the tree, returns the file paths
    of the tree in depth-first pre-order, each as a record of type
    ['file']: the paths are exactly the reachable file paths, none occurs
    twice and none is the path of a directory. *)
Theorem walk_complete_preorder
    (remote : string -> string -> string -> response)
    (o r root : string) (cs : list node) (fuel : nat) :
  serves remote o r root cs = true ->
  directory_tree root cs = true ->
  forest_height cs < fuel ->
  exists out t,
    getAllFiles remote fuel o r root = Some (Ret out, t)
    /\ out = map as_file (forest_files cs)
    /\ Forall (fun f => file_type f = "file") out
    /\ (forall p, In p (map file_path out) <-> reachable cs p)
    /\ NoDup (map file_path out)
    /\ (forall d, In d (flat_map dirs cs) -> ~ In d (map file_path out)).
Proof.
  intros Hs Ht Hh.
  exists (map as_file (forest_files cs)), (walk_trace o r root cs).
  rewrite map_path_as_file. repeat split.
  - now apply walk_served.
  - apply Forall_forall. intros f Hf.
    apply in_map_iff in Hf as (p & <- & _). reflexivity.
  - apply reachable_iff.
  - apply reachable_iff.
  - now apply forest_files_nodup with root.
  - intros d Hd Hf. destruct (files_only root cs d Ht Hf) as [H _]. auto.
Qed.

Lemma walk_complete_preorder_witness :
  exists out t,
    getAllFiles Sample.remote 2 "acme" "demo" "" = Some (Ret out, t)
    /\ out = map as_file (forest_files Sample.tree)
    /\ Forall (fun f => file_type f = "file") out
    /\ (forall p, In p (map file_path out) <-> reachable Sample.tree p)
    /\ NoDup (map file_path out)
    /\ (forall d, In d (flat_map dirs Sample.tree)
                  -> ~ In d (map file_path out)).
Proof.
  apply (walk_complete_preorder Sample.remote "acme" "demo" "" Sample.tree 2).
  - reflexivity.
  - reflexivity.
  - vm_compute. lia.
Defined.

(** ** The filter of get-repo-context *)

Lemma arr_includes_iff (arr : list string) (x : string) :
  JS.arr_includes arr x = true <-> In x arr.
Proof.
  unfold JS.arr_includes. rewrite existsb_exists. split.
  - intros (y & Hy & E). apply String.eqb_eq in E. now subst.
  - intros H. exists x. split; trivial. apply String.eqb_refl.
Qed.

Lemma excluded_iff (excludePaths : list string) (path : string) :
  existsb (fun excludePath => JS.includes path excludePath) excludePaths = true
  <-> exists x, In x excludePaths /\ substring x path.
Proof.
  rewrite existsb_exists. unfold substring.
  split; intros (x & Hx & H); exists x; split; trivial; now apply includes_iff.
Qed.

Lemma not_excluded_iff (excludePaths : list string) (path : string) :
  existsb (fun excludePath => JS.includes path excludePath) excludePaths = false
  <-> forall x, In x excludePaths -> ~ substring x path.
Proof.
  rewrite <- not_true_iff_false, excluded_iff. split.
  - intros H x Hx Hs. apply H. now exists x.
  - intros H (x & Hx & Hs). now apply (H x).
Qed.

(** With extensions listed, a file passes the filter when no excluded
    path occurs in its path and its final segment is listed. *)
Lemma keep_file_iff (excludePaths fileExtensions : list string) (f : file) :
  fileExtensions <> [] ->
  keep_file excludePaths fileExtensions f = true
  <-> (forall x, In x excludePaths -> ~ substring x (file_path f))
      /\ exists e, In e fileExtensions /\ final_segment (file_path f) e.
Proof.
  intros Hne. unfold keep_file. rewrite <- not_excluded_iff.
  destruct (existsb _ excludePaths).
  - split; [discriminate | intros [H _]; discriminate].
  - destruct fileExtensions as [|e0 es]; [congruence|].
    fold (extension (file_path f)). rewrite arr_includes_iff. split.
    + intros H. split; trivial. exists (extension (file_path f)).
      split; trivial. apply extension_final.
    + intros [_ (e & He & Hf)].
      now rewrite (final_segment_unique _ _ _ (extension_final (file_path f)) Hf).
Qed.

(** Without extensions listed, only the excluded paths decide. *)
Lemma keep_file_all (excludePaths : list string) (f : file) :
  keep_file excludePaths [] f = true
  <-> forall x, In x excludePaths -> ~ substring x (file_path f).
Proof.
  unfold keep_file. rewrite <- not_excluded_iff.
  destruct (existsb _ excludePaths); split; congruence.
Qed.

Lemma dotless_final (s e : string) :
  dot_free s = true -> final_segment s e <-> e = s.
Proof.
  intros Hs. split.
  - intros [_ [->|[pre ->]]]; trivial.
    rewrite dot_free_app in Hs. simpl in Hs. rewrite andb_false_r in Hs.
    discriminate.
  - intros ->. split; auto.
Qed.

(** ** C2 *)

(** C2, as stated, fails: the extension of a path without a dot is the
    whole path, not the empty string, and such a file passes the filter
    when its whole path is listed. *)
Lemma dotless_path_kept :
  ~ (forall (fileExtensions : list string) (f : file),
       fileExtensions <> [] ->
       dot_free (file_path f) = true ->
       extension (file_path f) = ""
       /\ keep_file [] fileExtensions f = false).
Proof.
  intros H.
  destruct (H ["LICENSE"] (as_file "LICENSE")) as [_ Hk].
  - discriminate.
  - reflexivity.
  - vm_compute in Hk. discriminate.
Qed.

(** C2, amended. With a non-empty [fileExtensions], the filter retains a
    file exactly when no excluded path occurs in its path and the final
    dot-separated segment of its path is one of the listed extensions;
    the final segment of a path without a dot is the whole path, so such
    a file is retained exactly when its whole path is listed. *)
Theorem extension_filter
    (excludePaths fileExtensions : list string) (allFiles : list file)
    (f : file) :
  fileExtensions <> [] ->
  (In f (filter (keep_file excludePaths fileExtensions) allFiles)
   <-> In f allFiles
       /\ (forall x, In x excludePaths -> ~ substring x (file_path f))
       /\ exists e, In e fileExtensions /\ final_segment (file_path f) e)
  /\ (dot_free (file_path f) = true ->
      extension (file_path f) = file_path f
      /\ (keep_file excludePaths fileExtensions f = true
          <-> (forall x, In x excludePaths -> ~ substring x (file_path f))
              /\ In (file_path f) fileExtensions)).
Proof.
  intros Hne. split.
  - rewrite filter_In, (keep_file_iff _ _ _ Hne). tauto.
  - intros Hd. split.
    + apply (dotless_final _ _ Hd). apply extension_final.
    + rewrite (keep_file_iff _ _ _ Hne). split.
      * intros [Hx (e & He & Hf)]. split; trivial.
        apply (dotless_final _ _ Hd) in Hf. now subst.
      * intros [Hx Hin]. split; trivial. exists (file_path f).
        split; trivial. now apply dotless_final.
Qed.

Lemma extension_filter_witness :
  (In (as_file "README.md")
      (filter (keep_file ["node_modules"] ["ts"; "md"])
              (map as_file (forest_files Sample.tree)))
   <-> In (as_file "README.md") (map as_file (forest_files Sample.tree))
       /\ (forall x, In x ["node_modules"] -> ~ substring x "README.md")
       /\ exists e, In e ["ts"; "md"] /\ final_segment "README.md" e)
  /\ (dot_free "README.md" = true ->
      extension "README.md" = "README.md"
      /\ (keep_file ["node_modules"] ["ts"; "md"] (as_file "README.md") = true
          <-> (forall x, In x ["node_modules"] -> ~ substring x "README.md")
              /\ In "README.md" ["ts"; "md"])).
Proof.
  apply (extension_filter ["node_modules"] ["ts"; "md"]
           (map as_file (forest_files Sample.tree)) (as_file "README.md")).
  discriminate.
Defined.

Example extension_ex :
  extension "src/a.ts" = "ts" /\ extension "a.tar.gz" = "gz"
  /\ extension "trailing." = "" /\ extension "Makefile" = "Makefile".
Proof. repeat split. Qed.

(** ** C3 *)

Lemma slice0_firstn {A} (l : list A) (n : Z) :
  (0 <= n)%Z -> JS.slice0 l n = firstn (Z.to_nat n) l.
Proof.
  intros H. unfold JS.slice0.
  destruct (Z.ltb_spec n 0); [lia | reflexivity].
Qed.

Lemma keep_file_passes (excludePaths fileExtensions : list string)
    (f : file) :
  keep_file excludePaths fileExtensions f = true
  <-> passes excludePaths fileExtensions (file_path f).
Proof.
  unfold passes. destruct fileExtensions as [|e0 es].
  - rewrite keep_file_all. split; [intros H; split; auto | now intros [H _]].
  - rewrite keep_file_iff by discriminate. split.
    + intros [H1 H2]. split; auto.
    + intros [H1 [H2|H2]]; [discriminate | now split].
Qed.

Lemma sieve_filter {A} (P : A -> Prop) (f : A -> bool) (l : list A) :
  (forall x, f x = true <-> P x) -> sieve P l (filter f l).
Proof.
  intros H. induction l as [|x l IH]; simpl; [constructor|].
  destruct (f x) eqn:E.
  - apply sieve_keep; trivial. now apply H.
  - apply sieve_drop; trivial. intros HP. apply H in HP. congruence.
Qed.

Lemma sieve_functional {A} (P : A -> Prop) (l a b : list A) :
  sieve P l a -> sieve P l b -> a = b.
Proof.
  intros Ha. revert b. induction Ha as [|x l a Hx _ IH|x l a Hx _ IH];
    intros b Hb; inversion Hb; subst; try contradiction; trivial.
  - f_equal. auto.
  - auto.
Qed.

(** C3. With [maxFiles = N], [N >= 0], the filter followed by the slice
    gives at most [N] records: the first [N], in the order of the walk
    (all of them when fewer exist), of the survivors, which are the files
    of the walk in whose path no element of [excludePaths] occurs and,
    when extensions are listed, whose final dot-separated segment is
    listed.  The survivors are taken from the whole list before it is
    cut. *)
Theorem select_prefix
    (excludePaths fileExtensions : list string) (N : Z)
    (allFiles : list file) :
  (0 <= N)%Z ->
  let selected := selectFiles excludePaths fileExtensions N allFiles in
  exists survivors,
    sieve (fun f => passes excludePaths fileExtensions (file_path f))
          allFiles survivors
    /\ (forall s,
          sieve (fun f => passes excludePaths fileExtensions (file_path f))
                allFiles s -> s = survivors)
    /\ selected = firstn (Z.to_nat N) survivors
    /\ (Z.of_nat (List.length selected) <= N)%Z
    /\ List.length selected = Nat.min (Z.to_nat N) (List.length survivors)
    /\ exists rest, survivors = (selected ++ rest)%list.
Proof.
  intros HN selected.
  exists (filter (keep_file excludePaths fileExtensions) allFiles).
  assert (Hs : sieve (fun f => passes excludePaths fileExtensions (file_path f))
                     allFiles
                     (filter (keep_file excludePaths fileExtensions) allFiles))
    by (apply sieve_filter; intros f; apply keep_file_passes).
  assert (E : selected
              = firstn (Z.to_nat N)
                  (filter (keep_file excludePaths fileExtensions) allFiles))
    by (apply slice0_firstn; assumption).
  split; [exact Hs|]. split.
  - intros s Hs'. exact (sieve_functional _ _ _ _ Hs' Hs).
  - rewrite E. repeat split.
    + pose proof (firstn_le_length (Z.to_nat N)
                    (filter (keep_file excludePaths fileExtensions) allFiles)).
      lia.
    + apply length_firstn.
    + exists (skipn (Z.to_nat N)
                (filter (keep_file excludePaths fileExtensions) allFiles)).
      symmetry. apply firstn_skipn.
Qed.

Lemma select_prefix_witness :
  let allFiles := map as_file (forest_files Sample.tree) in
  let selected := selectFiles ["node_modules"] ["ts"; "js"; "md"] 2 allFiles in
  exists survivors,
    sieve (fun f => passes ["node_modules"] ["ts"; "js"; "md"] (file_path f))
          allFiles survivors
    /\ (forall s,
          sieve (fun f => passes ["node_modules"] ["ts"; "js"; "md"]
                            (file_path f))
                allFiles s -> s = survivors)
    /\ selected = firstn (Z.to_nat 2) survivors
    /\ (Z.of_nat (List.length selected) <= 2)%Z
    /\ List.length selected = Nat.min (Z.to_nat 2) (List.length survivors)
    /\ exists rest, survivors = (selected ++ rest)%list.
Proof.
  apply (select_prefix ["node_modules"] ["ts"; "js"; "md"] 2
           (map as_file (forest_files Sample.tree))).
  lia.
Defined.

Example select_ex :
  selectFiles ["node_modules"] [] 2 (map as_file (forest_files Sample.tree))
  = [as_file "src/a.ts"; as_file "src/b.js"]
  /\ selectFiles ["node_modules"] ["ts"; "md"] 10
       (map as_file (forest_files Sample.tree))
     = [as_file "src/a.ts"; as_file "README.md"].
Proof. split; reflexivity. Qed.

(** A negative [maxFiles] drops files from the end instead. *)
Example select_negative_ex :
  selectFiles [] [] (-1) (map as_file ["a"; "b"; "c"])
  = map as_file ["a"; "b"].
Proof. reflexivity. Qed.

(** ** Computations that do not raise *)

Lemma bind_inv {A B} (m : M A) (f : A -> M B) (b : outcome B)
    (t : list event) :
  bind m f = Some (b, t) ->
  (exists e, m = Some (Raise e, t) /\ b = Raise e)
  \/ exists a t1 t2,
       m = Some (Ret a, t1) /\ f a = Some (b, t2) /\ t = (t1 ++ t2)%list.
Proof.
  unfold bind. destruct m as [[[a|e] t1]|]; [| |discriminate].
  - destruct (f a) as [[b' t2]|] eqn:E; [|discriminate].
    intros H. injection H as <- <-. right. now exists a, t1, t2.
  - intros H. injection H as <- <-. left. now exists e.
Qed.

Lemma no_raise_bind {A B} (m : M A) (f : A -> M B) :
  no_raise m -> (forall a, no_raise (f a)) -> no_raise (bind m f).
Proof.
  unfold bind. destruct m as [[[a|e] t1]|]; simpl; try tauto.
  intros _ H. specialize (H a). now destruct (f a) as [[[b|e] t2]|].
Qed.

Lemma no_raise_for_of {A S} (body : A -> S -> M S) (l : list A) :
  (forall x s, no_raise (body x s)) -> forall s, no_raise (for_of l body s).
Proof.
  intros H. induction l as [|x l IH]; intros s; simpl; [exact I|].
  apply no_raise_bind; auto.
Qed.

Lemma try_catch_no_raise {A} (m : M A) (h : error -> M A) :
  no_raise m -> try_catch m h = m.
Proof. now destruct m as [[[a|e] t]|]. Qed.

Lemma bind_ret {A B} (a : A) (t : list event) (f : A -> M B) :
  bind (Some (Ret a, t)) f
  = match f a with
    | None => None
    | Some (b, t') => Some (b, (t ++ t')%list)
    end.
Proof. reflexivity. Qed.

Section Handlers.

Variable remote : string -> string -> string -> response.
Variable base64_utf8 : string -> outcome string.

Lemma getAllFiles_no_raise (fuel : nat) (o r p : string) :
  no_raise (getAllFiles remote fuel o r p).
Proof.
  revert p. induction fuel as [|fuel IH]; intros p; simpl; [exact I|].
  apply no_raise_bind.
  - now rewrite getRepoContents_value.
  - intros items. apply no_raise_for_of. intros it acc.
    unfold getAllFiles_step.
    destruct (field_is (item_type it) "file"); [exact I|].
    destruct (field_is (item_type it) "dir"); [|exact I].
    apply no_raise_bind; [apply IH | intros; exact I].
Qed.

(** The content loop fetches each selected file, in order. *)
Lemma fetch_loop (o r : string) (fs : list file) :
  forall acc, exists t,
    for_of fs (fetch_step remote base64_utf8 o r) acc
    = Some (Ret (acc ++ fetch_records remote base64_utf8 o r fs)%list, t).
Proof.
  unfold fetch_records.
  induction fs as [|f fs IH]; intros acc; simpl.
  - exists []. now rewrite app_nil_r.
  - unfold fetch_step at 1. destruct (file_type f =? "file").
    + rewrite getFileContent_value. simpl bind at 2.
      destruct (IH (acc ++ [{| fc_path := file_path f;
                               fc_content := fetched base64_utf8
                                 (remote o r (file_path f)) |}])%list)
        as [t Ht].
      rewrite bind_ret, Ht. rewrite <- app_assoc. simpl. eauto.
    + destruct (IH acc) as [t Ht]. simpl bind. rewrite Ht. eauto.
Qed.

(** What get-repo-structure answers, from what the walk returns. *)
Lemma get_repo_structure_value (fuel : nat) (o r : string) :
  get_repo_structure remote fuel o r
  = match getAllFiles remote fuel o r "" with
    | Some (Ret allFiles, t) =>
        Some (Ret (text_result
                     (structure_header o r
                      ++ JS.join JS.nl (JS.sort (map file_path allFiles)))),
              t)
    | Some (Raise e, t) => Some (Raise e, t)
    | None => None
    end.
Proof.
  unfold get_repo_structure, structure_header.
  pose proof (getAllFiles_no_raise fuel o r "") as Hn.
  destruct (getAllFiles remote fuel o r "") as [[[allFiles|e] t]|];
    simpl in Hn; try contradiction; trivial.
  unfold bind, ret, try_catch. now rewrite app_nil_r, !append_assoc.
Qed.

(** What get-repo-context answers, from what the walk returns. *)
Lemma get_repo_context_value (fuel : nat) (a : context_args) :
  let excl := default (excludePaths a) ["node_modules"; "dist"; "build"] in
  let exts := default (fileExtensions a) [] in
  let N := default (maxFiles a) 50%Z in
  match getAllFiles remote fuel (owner a) (repo a) "" with
  | Some (Ret allFiles, _) =>
      exists t,
        get_repo_context remote base64_utf8 fuel a
        = Some (Ret (text_result
                       (context_header (owner a) (repo a)
                        ++ formatContent
                             (fetch_records remote base64_utf8
                                (owner a) (repo a)
                                (selectFiles excl exts N allFiles)))),
                t)
  | Some (Raise _, _) => False
  | None => get_repo_context remote base64_utf8 fuel a = None
  end.
Proof.
  intros excl exts N. unfold get_repo_context, context_header.
  fold excl exts N.
  pose proof (getAllFiles_no_raise fuel (owner a) (repo a) "") as Hn.
  destruct (getAllFiles remote fuel (owner a) (repo a) "")
    as [[[allFiles|e] t]|]; simpl in Hn; try contradiction.
  - destruct (fetch_loop (owner a) (repo a)
                (selectFiles excl exts N allFiles) []) as [t' Ht'].
    unfold console_error, emit. rewrite !bind_ret, Ht'.
    unfold ret, try_catch. rewrite bind_ret. cbv beta iota.
    rewrite !append_assoc. eauto.
  - reflexivity.
Qed.

End Handlers.

(** The walk has no cycle detection: on a remote whose answers loop it
    returns for no amount of fuel. *)
Lemma walk_cycle_never_returns (fuel : nat) (o r p : string) :
  getAllFiles Sample.cyclic fuel o r p = None.
Proof.
  induction fuel as [|fuel IH]; [reflexivity|].
  change (getAllFiles Sample.cyclic (S fuel) o r p)
    with (bind (getRepoContents Sample.cyclic o r p)
            (fun contents =>
               for_of contents
                 (getAllFiles_step (getAllFiles Sample.cyclic fuel o r)) [])).
  rewrite getRepoContents_value, bind_ret. simpl.
  unfold getAllFiles_step. simpl. now rewrite IH.
Qed.

(** ** The selected files *)

Lemma slice0_In {A} (l : list A) (n : Z) (x : A) :
  In x (JS.slice0 l n) -> In x l.
Proof.
  unfold JS.slice0. destruct (n <? 0)%Z; intros H.
  - rewrite <- (firstn_skipn (Z.to_nat (Z.max (Z.of_nat (List.length l) + n) 0)) l).
    apply in_or_app. now left.
  - rewrite <- (firstn_skipn (Z.to_nat n) l). apply in_or_app. now left.
Qed.

Lemma selected_kept (excludePaths fileExtensions : list string) (N : Z)
    (allFiles : list file) (f : file) :
  In f (selectFiles excludePaths fileExtensions N allFiles) ->
  In f allFiles /\ keep_file excludePaths fileExtensions f = true.
Proof.
  unfold selectFiles. intros H. apply slice0_In in H.
  now apply filter_In in H.
Qed.

Lemma fetch_records_path (remote : string -> string -> string -> response)
    (base64_utf8 : string -> outcome string) (o r : string)
    (fs : list file) (rec : file_content) :
  In rec (fetch_records remote base64_utf8 o r fs) ->
  exists f, In f fs /\ file_type f = "file" /\ fc_path rec = file_path f
            /\ fc_content rec = fetched base64_utf8 (remote o r (file_path f)).
Proof.
  unfold fetch_records. intros H. apply in_map_iff in H as (f & <- & Hf).
  apply filter_In in Hf as [Hf Ht]. apply String.eqb_eq in Ht.
  exists f. now repeat split.
Qed.

Lemma keep_file_not_excluded (excludePaths fileExtensions : list string)
    (f : file) :
  keep_file excludePaths fileExtensions f = true ->
  forall x, In x excludePaths -> ~ substring x (file_path f).
Proof.
  unfold keep_file. intros H. apply not_excluded_iff.
  destruct (existsb _ excludePaths); [discriminate | reflexivity].
Qed.

(** ** get-file-content *)

(** What get-file-content answers, from the response of the remote. *)
Lemma get_file_content_value
    (remote : string -> string -> string -> response)
    (base64_utf8 : string -> outcome string) (o r p : string) :
  get_file_content remote base64_utf8 o r p
  = Some (Ret (text_result
                 match fetched base64_utf8 (remote o r p) with
                 | Some c =>
                     if (c =? "") then could_not_retrieve o r p
                     else fenced p c
                 | None => could_not_retrieve o r p
                 end),
          Call o r p :: match fetch_failure base64_utf8 (remote o r p) with
                        | Some e => [content_error o r p e]
                        | None => []
                        end).
Proof.
  unfold get_file_content. rewrite getFileContent_value, bind_ret.
  unfold could_not_retrieve, fenced.
  destruct (fetched base64_utf8 (remote o r p)) as [c|]; simpl JS.falsy.
  - destruct (c =? ""); unfold ret, try_catch; now rewrite app_nil_r.
  - unfold ret, try_catch. now rewrite app_nil_r.
Qed.

(** Content that is present and not empty is answered in the fence. *)
Lemma get_file_content_present
    (remote : string -> string -> string -> response)
    (base64_utf8 : string -> outcome string) (o r p c : string) :
  fetched base64_utf8 (remote o r p) = Some c -> c <> "" ->
  exists t,
    get_file_content remote base64_utf8 o r p
    = Some (Ret (text_result (fenced p c)), t).
Proof.
  intros Hc Hne. rewrite get_file_content_value, Hc.
  apply String.eqb_neq in Hne. rewrite Hne. eauto.
Qed.

(** ** C5 *)

(** C5 fails on an empty file: its content is fetched, and is the empty
    string, yet get-file-content answers that the content could not be
    retrieved; get-repo-context renders the same file as a block. *)
Lemma empty_file_not_retrieved :
  getFileContent Sample.remote Sample.decode "acme" "demo" "empty.txt"
  = Some (Ret (Some ""), [Call "acme" "demo" "empty.txt"])
  /\ get_file_content Sample.remote Sample.decode "acme" "demo" "empty.txt"
     = Some (Ret (text_result
                    "Could not retrieve content for empty.txt in acme/demo"),
             [Call "acme" "demo" "empty.txt"])
  /\ formatContent
       (fetch_records Sample.remote Sample.decode "acme" "demo"
          [as_file "empty.txt"])
     = block {| fc_path := "empty.txt"; fc_content := Some "" |}.
Proof. repeat split. Qed.

(** The same for every remote and decoder: content that decodes to the
    empty string is reported as not retrieved. *)
Lemma empty_content_not_retrieved
    (remote : string -> string -> string -> response)
    (base64_utf8 : string -> outcome string) (o r p : string) :
  fetched base64_utf8 (remote o r p) = Some "" ->
  exists t,
    getFileContent remote base64_utf8 o r p = Some (Ret (Some ""), t)
    /\ get_file_content remote base64_utf8 o r p
       = Some (Ret (text_result (could_not_retrieve o r p)), t).
Proof.
  intros H. rewrite getFileContent_value, get_file_content_value, H.
  simpl. eauto.
Qed.

(** ** C6 *)

Lemma undecodable_fetched (base64_utf8 : string -> outcome string)
    (resp : response) :
  undecodable base64_utf8 resp -> fetched base64_utf8 resp = None.
Proof.
  destruct resp as [[items|it|]|e]; simpl; trivial.
  destruct (item_content it) as [c|], (item_encoding it) as [enc|]; trivial.
  destruct (String.eqb_spec enc "base64") as [->|Hne]; trivial.
  intros [H|[e H]]; [congruence | now rewrite H].
Qed.

(** C6. When the response of the remote does not declare base64 content
    that decodes (another encoding, a missing field, a listing, a failed
    call or a failed decoding), [getFileContent] returns [null] and
    get-file-content returns, without raising, the text that the content
    could not be retrieved. *)
Theorem not_base64_not_retrieved
    (remote : string -> string -> string -> response)
    (base64_utf8 : string -> outcome string) (o r p : string) :
  undecodable base64_utf8 (remote o r p) ->
  exists t,
    getFileContent remote base64_utf8 o r p = Some (Ret None, t)
    /\ get_file_content remote base64_utf8 o r p
       = Some (Ret (text_result (could_not_retrieve o r p)), t).
Proof.
  intros H. apply undecodable_fetched in H.
  rewrite getFileContent_value, get_file_content_value, H. eauto.
Qed.

Lemma not_base64_not_retrieved_witness :
  exists t,
    getFileContent Sample.remote Sample.decode "acme" "demo" "LICENSE"
    = Some (Ret None, t)
    /\ get_file_content Sample.remote Sample.decode "acme" "demo" "LICENSE"
       = Some (Ret (text_result (could_not_retrieve "acme" "demo" "LICENSE")),
               t).
Proof.
  apply (not_base64_not_retrieved Sample.remote Sample.decode
           "acme" "demo" "LICENSE").
  simpl. left. discriminate.
Defined.

Example file_content_ex :
  get_file_content Sample.remote Sample.decode "acme" "demo" "src/a.ts"
  = Some (Ret (text_result (fenced "src/a.ts" "let a")),
          [Call "acme" "demo" "src/a.ts"]).
Proof. reflexivity. Qed.

(** A decoder that throws is caught at the call. *)
Example decode_failure_ex :
  get_file_content Sample.remote (fun _ => Raise "Invalid string length")
    "acme" "demo" "src/a.ts"
  = Some (Ret (text_result (could_not_retrieve "acme" "demo" "src/a.ts")),
          [Call "acme" "demo" "src/a.ts";
           content_error "acme" "demo" "src/a.ts" "Invalid string length"]).
Proof. reflexivity. Qed.

(** ** C7 *)

(** C7. When the remote call of [getRepoContents] is rejected, the
    function writes one line to the diagnostic channel and returns the
    empty array instead of raising: the value an empty directory gives,
    and the walk of that path returns no file. *)
Theorem listing_failure_is_empty
    (remote : string -> string -> string -> response)
    (o r p : string) (e : error) :
  remote o r p = Rejected e ->
  getRepoContents remote o r p
  = Some (Ret [], [Call o r p; contents_error o r p e])
  /\ (forall remote', remote' o r p = Resolved (DataArray []) ->
        getRepoContents remote' o r p = Some (Ret [], [Call o r p]))
  /\ (forall fuel,
        getAllFiles remote (S fuel) o r p
        = Some (Ret [], [Call o r p; contents_error o r p e])).
Proof.
  intros H. repeat split.
  - now rewrite getRepoContents_value, H.
  - intros remote' H'. now rewrite getRepoContents_value, H'.
  - intros fuel. simpl getAllFiles. now rewrite getRepoContents_value, H.
Qed.

Lemma listing_failure_is_empty_witness :
  getRepoContents Sample.remote "acme" "demo" "gone"
  = Some (Ret [], [Call "acme" "demo" "gone";
                   contents_error "acme" "demo" "gone" "Not Found"])
  /\ (forall remote', remote' "acme" "demo" "gone" = Resolved (DataArray []) ->
        getRepoContents remote' "acme" "demo" "gone"
        = Some (Ret [], [Call "acme" "demo" "gone"]))
  /\ (forall fuel,
        getAllFiles Sample.remote (S fuel) "acme" "demo" "gone"
        = Some (Ret [], [Call "acme" "demo" "gone";
                         contents_error "acme" "demo" "gone" "Not Found"])).
Proof.
  apply (listing_failure_is_empty Sample.remote "acme" "demo" "gone"
           "Not Found").
  reflexivity.
Defined.

(** ** A listing that fails during the walk *)

Section Failure.

Variable remote : string -> string -> string -> response.
Variables o r d : string.
Variable e : error.

Lemma forall2b_map_r {A B} (f g : A -> B -> bool) (h : B -> B)
    (l2 : list B) :
  Forall (fun b => forall a, f a b = true -> g a (h b) = true) l2 ->
  forall l1, forall2b f l1 l2 = true -> forall2b g l1 (map h l2) = true.
Proof.
  induction 1 as [|b l2 Hb _ IH]; intros [|a l1]; simpl; trivial;
    try discriminate.
  intros H. apply andb_true_iff in H as [H1 H2].
  now rewrite (Hb a H1), (IH l1 H2).
Qed.

Lemma inject_other (p : string) :
  p <> d -> inject d e remote o r p = remote o r p.
Proof. unfold inject. intros H. apply String.eqb_neq in H. now rewrite H. Qed.

Lemma inject_same : inject d e remote o r d = Rejected e.
Proof. unfold inject. now rewrite String.eqb_refl. Qed.

Lemma describes_break (n : node) :
  forall it,
    describes remote o r it n = true ->
    describes (inject d e remote) o r it (break d e n) = true.
Proof.
  induction n as [p|q sub IH|p e'|p] using node_induction; intros it H;
    trivial.
  - apply describes_dir in H as H'. destruct H' as (Ht & Hp & Hs).
    simpl break. destruct (String.eqb_spec q d) as [->|Hne].
    + simpl. apply field_is_true in Ht. rewrite Ht, Hp, String.eqb_refl.
      now rewrite inject_same, String.eqb_refl.
    + simpl. apply field_is_true in Ht. rewrite Ht, Hp, String.eqb_refl.
      rewrite (inject_other q Hne).
      apply serves_inv in Hs as (items & -> & Hd).
      now apply forall2b_map_r with (f := describes remote o r).
  - simpl in H. apply andb_true_iff in H as [H He].
    simpl break. destruct (String.eqb_spec p d) as [->|Hne]; simpl.
    + now rewrite H, inject_same, String.eqb_refl.
    + now rewrite H, (inject_other p Hne).
Qed.

Lemma serves_break (root : string) (cs : list node) :
  root <> d ->
  serves remote o r root cs = true ->
  serves (inject d e remote) o r root (map (break d e) cs) = true.
Proof.
  intros Hne Hs. apply serves_inv in Hs as (items & Hr & Hd).
  unfold serves. rewrite (inject_other root Hne), Hr.
  apply forall2b_map_r with (f := describes remote o r); trivial.
  apply Forall_forall. intros n _. apply describes_break.
Qed.

Lemma files_break (n : node) : files (break d e n) = outside d n.
Proof.
  induction n as [p|q sub IH|p e'|p] using node_induction; simpl; trivial.
  - destruct (q =? d); simpl; trivial.
    rewrite flat_map_concat_map, map_map, <- flat_map_concat_map.
    now apply flat_map_Forall_ext.
  - now destruct (p =? d).
Qed.

Lemma forest_files_break (cs : list node) :
  forest_files (map (break d e) cs) = flat_map (outside d) cs.
Proof.
  unfold forest_files.
  rewrite flat_map_concat_map, map_map, <- flat_map_concat_map.
  apply flat_map_Forall_ext, Forall_forall. intros n _. apply files_break.
Qed.

Lemma list_max_map_le {A} (f g : A -> nat) (l : list A) :
  Forall (fun x => f x <= g x) l -> list_max (map f l) <= list_max (map g l).
Proof. induction 1; simpl; lia. Qed.

Lemma height_break (n : node) : height (break d e n) <= height n.
Proof.
  induction n as [p|q sub IH|p e'|p] using node_induction; simpl; trivial.
  - destruct (q =? d); simpl; [lia|].
    rewrite map_map. apply le_n_S. now apply list_max_map_le.
  - destruct (p =? d); simpl; lia.
Qed.

Lemma forest_height_break (cs : list node) :
  forest_height (map (break d e) cs) <= forest_height cs.
Proof.
  unfold forest_height. rewrite map_map.
  apply list_max_map_le, Forall_forall. intros n _. apply height_break.
Qed.

End Failure.

(** Where the directory [d] does not occur, nothing is outside. *)
Lemma outside_untouched (d : string) (n : node) :
  ~ In d (dirs n) -> outside d n = files n.
Proof.
  induction n as [p|q sub IH|p e'|p] using node_induction; simpl; trivial.
  intros H. destruct (String.eqb_spec q d) as [->|Hne]; [tauto|].
  apply flat_map_Forall_ext. rewrite Forall_forall in *.
  intros c Hc. apply (IH c Hc). intros Hd. apply H. right.
  apply in_flat_map. now exists c.
Qed.

Lemma forest_outside_untouched (d : string) (cs : list node) :
  ~ In d (flat_map dirs cs) -> flat_map (outside d) cs = forest_files cs.
Proof.
  intros H. apply flat_map_Forall_ext, Forall_forall. intros c Hc.
  apply outside_untouched. intros Hd. apply H, in_flat_map. now exists c.
Qed.

Lemma outside_files (d : string) (n : node) (p : string) :
  In p (outside d n) -> In p (files n).
Proof.
  induction n as [q|q sub IH|q e'|q] using node_induction; simpl; trivial.
  destruct (q =? d); [contradiction|]. rewrite !in_flat_map.
  rewrite Forall_forall in IH. intros (c & Hc & H). exists c. auto.
Qed.

(** ** C8 *)

(** C8. When the listing call for one subdirectory [d] of a served tree
    is rejected, the walk still returns, in order, every file of the
    tree that is not below [d], and only files of the tree; the failure
    costs one diagnostic line.  In the listing where [d] is an entry, all
    results of the entries before and after it are kept. *)
Theorem walk_survives_failure
    (remote : string -> string -> string -> response)
    (o r root d : string) (e : error) (cs : list node) (fuel : nat) :
  serves remote o r root cs = true ->
  root <> d ->
  forest_height cs < fuel ->
  getAllFiles (inject d e remote) fuel o r root
  = Some (Ret (map as_file (flat_map (outside d) cs)),
          walk_trace o r root (map (break d e) cs))
  /\ (forall p, In p (flat_map (outside d) cs) -> In p (forest_files cs))
  /\ (forall before sub after,
        cs = (before ++ Dir d sub :: after)%list ->
        ~ In d (flat_map dirs before) -> ~ In d (flat_map dirs after) ->
        flat_map (outside d) cs
        = (forest_files before ++ forest_files after)%list
        /\ exists t1 t2,
             walk_trace o r root (map (break d e) cs)
             = (t1 ++ [Call o r d; contents_error o r d e] ++ t2)%list).
Proof.
  intros Hs Hne Hh. split; [|split].
  - rewrite <- forest_files_break with (e := e).
    apply walk_served.
    + pose proof (forest_height_break d e cs). lia.
    + now apply serves_break.
  - intros p Hp. unfold forest_files.
    apply in_flat_map in Hp as (c & Hc & Hp). apply in_flat_map.
    exists c. split; trivial. now apply outside_files with d.
  - intros before sub after -> Hb Ha. split.
    + rewrite flat_map_app. simpl. rewrite String.eqb_refl. simpl.
      now rewrite !forest_outside_untouched.
    + unfold walk_trace. rewrite map_app, flat_map_app. simpl.
      rewrite String.eqb_refl. simpl.
      exists (Call o r root :: flat_map (node_trace o r)
                                       (map (break d e) before)),
             (flat_map (node_trace o r) (map (break d e) after)).
      reflexivity.
Qed.

Lemma walk_survives_failure_witness :
  getAllFiles (inject "src" "boom" Sample.remote) 2 "acme" "demo" ""
  = Some (Ret (map as_file (flat_map (outside "src") Sample.tree)),
          walk_trace "acme" "demo" "" (map (break "src" "boom") Sample.tree))
  /\ (forall p, In p (flat_map (outside "src") Sample.tree)
                -> In p (forest_files Sample.tree))
  /\ (forall before sub after,
        Sample.tree = (before ++ Dir "src" sub :: after)%list ->
        ~ In "src" (flat_map dirs before) ->
        ~ In "src" (flat_map dirs after) ->
        flat_map (outside "src") Sample.tree
        = (forest_files before ++ forest_files after)%list
        /\ exists t1 t2,
             walk_trace "acme" "demo" ""
               (map (break "src" "boom") Sample.tree)
             = (t1 ++ [Call "acme" "demo" "src";
                       contents_error "acme" "demo" "src" "boom"] ++ t2)%list).
Proof.
  apply (walk_survives_failure Sample.remote "acme" "demo" "" "src" "boom"
           Sample.tree 2).
  - reflexivity.
  - discriminate.
  - vm_compute. lia.
Defined.

Example walk_failure_ex :
  getAllFiles (inject "src" "boom" Sample.remote) 2 "acme" "demo" ""
  = Some (Ret (map as_file ["node_modules/c.js"; "README.md"; "LICENSE";
                            "empty.txt"]),
          [Call "acme" "demo" ""; Call "acme" "demo" "src";
           contents_error "acme" "demo" "src" "boom";
           Call "acme" "demo" "node_modules"]).
Proof. reflexivity. Qed.

(** ** The default sort *)

Lemma lex_le_trans (a b c : string) : lex_le a b -> lex_le b c -> lex_le a c.
Proof.
  unfold lex_le, String.leb. revert b c.
  induction a as [|x a IH]; intros [|y b] [|z c]; simpl; trivial;
    try discriminate.
  unfold Ascii.compare.
  destruct (N.compare_spec (N_of_ascii x) (N_of_ascii y)) as [E1|L1|G1];
    destruct (N.compare_spec (N_of_ascii y) (N_of_ascii z)) as [E2|L2|G2];
    destruct (N.compare_spec (N_of_ascii x) (N_of_ascii z)) as [E3|L3|G3];
    trivial; try discriminate; try lia.
  apply IH.
Qed.

Lemma lex_le_total (a b : string) : lex_le a b \/ lex_le b a.
Proof. apply String.leb_total. Qed.

Lemma lex_le_antisym (a b : string) : lex_le a b -> lex_le b a -> a = b.
Proof. apply String.leb_antisym. Qed.

Lemma insert_perm (x : string) (l : list string) :
  Permutation (JS.insert x l) (x :: l).
Proof.
  induction l as [|y l IH]; simpl; [reflexivity|].
  destruct (String.leb x y); [reflexivity|].
  rewrite IH. apply perm_swap.
Qed.

Lemma sort_perm (l : list string) : Permutation (JS.sort l) l.
Proof.
  induction l as [|x l IH]; simpl; [reflexivity|].
  now rewrite insert_perm, IH.
Qed.

Lemma insert_sorted (x : string) (l : list string) :
  StronglySorted lex_le l -> StronglySorted lex_le (JS.insert x l).
Proof.
  induction 1 as [|y l Hl IH Hy]; simpl.
  - repeat constructor.
  - destruct (String.leb x y) eqn:E.
    + constructor; [now constructor|]. constructor; trivial.
      apply Forall_forall. intros z Hz. rewrite Forall_forall in Hy.
      apply lex_le_trans with y; auto.
    + constructor; trivial.
      apply Forall_forall. intros z Hz.
      apply (Permutation_in _ (insert_perm x l)) in Hz as [<-|Hz].
      * destruct (lex_le_total x y) as [H|H]; [unfold lex_le in H; congruence|].
        exact H.
      * rewrite Forall_forall in Hy. auto.
Qed.

Lemma sort_sorted (l : list string) : StronglySorted lex_le (JS.sort l).
Proof.
  induction l as [|x l IH]; simpl; [constructor | now apply insert_sorted].
Qed.

(** A list has one sorted arrangement: whatever algorithm the runtime
    uses, [sort] gives this list. *)
Lemma sorted_unique (l1 l2 : list string) :
  StronglySorted lex_le l1 -> StronglySorted lex_le l2 ->
  Permutation l1 l2 -> l1 = l2.
Proof.
  intros H1. revert l2. induction H1 as [|x l1 Hl1 IH Hx]; intros l2 H2 Hp.
  - now apply Permutation_nil in Hp.
  - destruct H2 as [|y l2 Hl2 Hy].
    + apply Permutation_sym, Permutation_nil in Hp. discriminate.
    + assert (x = y) as <-.
      { rewrite Forall_forall in Hx, Hy.
        assert (Hxin : In x (y :: l2))
          by (apply (Permutation_in _ Hp); now left).
        assert (Hyin : In y (x :: l1))
          by (apply (Permutation_in _ (Permutation_sym Hp)); now left).
        destruct Hxin as [->|Hxin]; trivial.
        destruct Hyin as [->|Hyin]; trivial.
        apply lex_le_antisym; auto. }
      f_equal. apply IH; trivial. now apply Permutation_cons_inv with x.
Qed.

(** ** C9 *)

(** C9. get-repo-structure answers its header followed by the paths the
    walk returned, all of them (no filter, no truncation: the listed
    paths are a permutation of the walker's), in lexicographic order and
    joined by newlines. *)
Theorem structure_lists_every_file
    (remote : string -> string -> string -> response)
    (fuel : nat) (o r : string) (allFiles : list file) (t : list event) :
  getAllFiles remote fuel o r "" = Some (Ret allFiles, t) ->
  exists listed,
    get_repo_structure remote fuel o r
    = Some (Ret (text_result (structure_header o r ++ JS.join JS.nl listed)),
            t)
    /\ Permutation listed (map file_path allFiles)
    /\ StronglySorted lex_le listed
    /\ List.length listed = List.length allFiles
    /\ (forall f, In f allFiles -> In (file_path f) listed).
Proof.
  intros H. exists (JS.sort (map file_path allFiles)).
  rewrite get_repo_structure_value, H.
  pose proof (sort_perm (map file_path allFiles)) as Hp.
  repeat split; trivial.
  - apply sort_sorted.
  - now rewrite (Permutation_length Hp), length_map.
  - intros f Hf. apply (Permutation_in _ (Permutation_sym Hp)).
    now apply in_map.
Qed.

Lemma structure_lists_every_file_witness :
  exists listed,
    get_repo_structure Sample.remote 2 "acme" "demo"
    = Some (Ret (text_result (structure_header "acme" "demo"
                              ++ JS.join JS.nl listed)),
            walk_trace "acme" "demo" "" Sample.tree)
    /\ Permutation listed
         (map file_path (map as_file (forest_files Sample.tree)))
    /\ StronglySorted lex_le listed
    /\ List.length listed
       = List.length (map as_file (forest_files Sample.tree))
    /\ (forall f, In f (map as_file (forest_files Sample.tree))
                  -> In (file_path f) listed).
Proof.
  apply (structure_lists_every_file Sample.remote 2 "acme" "demo"
           (map as_file (forest_files Sample.tree))
           (walk_trace "acme" "demo" "" Sample.tree)).
  reflexivity.
Defined.

Example structure_ex :
  get_repo_structure Sample.remote 2 "acme" "demo"
  = Some (Ret (text_result
                 (structure_header "acme" "demo"
                  ++ JS.join JS.nl ["LICENSE"; "README.md"; "empty.txt";
                                    "node_modules/c.js"; "src/a.ts";
                                    "src/b.js"])),
          [Call "acme" "demo" ""; Call "acme" "demo" "src";
           Call "acme" "demo" "node_modules"]).
Proof. reflexivity. Qed.

(** ** Where the records of the walk come from *)

Section Sound.

Variable remote : string -> string -> string -> response.
Variables o r root : string.

Lemma walk_loop_sound (fuel : nat) (p : string) :
  (forall q, visited remote o r root q ->
     forall out t, getAllFiles remote fuel o r q = Some (Ret out, t) ->
       Forall (from_file_entry remote o r root) out
       /\ Forall (call_visited remote o r root) t) ->
  visited remote o r root p ->
  forall items acc out t,
    (forall it, In it items -> In it (listing (remote o r p))) ->
    Forall (from_file_entry remote o r root) acc ->
    for_of items (getAllFiles_step (getAllFiles remote fuel o r)) acc
    = Some (Ret out, t) ->
    Forall (from_file_entry remote o r root) out /\ Forall (call_visited remote o r root) t.
Proof.
  intros IH Hp. induction items as [|it items IHitems];
    intros acc out t Hin Hacc Hrun.
  - injection Hrun as <- <-. now split.
  - simpl in Hrun.
    apply bind_inv in Hrun
      as [(e & _ & He)|(acc' & t1 & t2 & Hstep & Hrest & ->)];
      [discriminate|].
    assert (Hit : In it (listing (remote o r p))) by (apply Hin; now left).
    assert (Hstep' : Forall (from_file_entry remote o r root) acc'
                     /\ Forall (call_visited remote o r root) t1).
    { unfold getAllFiles_step in Hstep.
      destruct (field_is (item_type it) "file") eqn:Ef.
      - injection Hstep as <- <-. split; [|constructor].
        apply Forall_app. split; trivial. constructor; [|constructor].
        split; [reflexivity|]. exists p, it.
        apply field_is_true in Ef. now repeat split.
      - destruct (field_is (item_type it) "dir") eqn:Ed.
        + apply bind_inv in Hstep
            as [(e & _ & He)|(sub & t1' & t2' & Hsub & Hret & ->)];
            [discriminate|].
          injection Hret as <- <-. apply field_is_true in Ed.
          destruct (IH (item_path it) (visited_dir _ _ _ _ _ _ Hp Hit Ed)
                      sub t1' Hsub) as [Hs Ht].
          split.
          * apply Forall_app. now split.
          * rewrite app_nil_r. exact Ht.
        + injection Hstep as <- <-. split; [assumption | constructor]. }
    destruct Hstep' as [Hacc' Ht1].
    destruct (IHitems acc' out t2) as [Hout Ht2]; trivial.
    + intros it' H'. apply Hin. now right.
    + split; trivial. apply Forall_app. now split.
Qed.

(** Every record the walk returns is of type ['file'] and comes from an
    entry of type exactly ['file'] in the listing of a visited directory;
    every remote call is for the root or for an entry of type exactly
    ['dir']. *)
Lemma walk_sound (fuel : nat) :
  forall p, visited remote o r root p ->
  forall out t, getAllFiles remote fuel o r p = Some (Ret out, t) ->
    Forall (from_file_entry remote o r root) out /\ Forall (call_visited remote o r root) t.
Proof.
  induction fuel as [|fuel IH]; intros p Hp out t Hrun; [discriminate|].
  simpl in Hrun. rewrite getRepoContents_value, bind_ret in Hrun.
  destruct (for_of _ _ _) as [[res t']|] eqn:Hloop; [|discriminate].
  injection Hrun as -> <-.
  destruct (walk_loop_sound fuel p IH Hp _ _ _ _ (fun it H => H)
              (Forall_nil _) Hloop) as [Hout Ht].
  split; trivial. constructor; [now repeat split|].
  apply Forall_app. split; trivial.
  destruct (remote o r p); repeat constructor.
Qed.

End Sound.

(** * Further properties of the program *)

(** ** The bound on the recursion does not shape the answer *)

Section Fuel.

Variable remote : string -> string -> string -> response.
Variables o r : string.

Lemma walk_loop_mono (f f' : nat) :
  (forall p res t, getAllFiles remote f o r p = Some (res, t) ->
                   getAllFiles remote f' o r p = Some (res, t)) ->
  forall items acc res t,
    for_of items (getAllFiles_step (getAllFiles remote f o r)) acc
    = Some (res, t) ->
    for_of items (getAllFiles_step (getAllFiles remote f' o r)) acc
    = Some (res, t).
Proof.
  intros IH. induction items as [|it items IHitems]; intros acc res t Hrun;
    [exact Hrun|].
  simpl in *.
  assert (Hstep : forall res1 t1,
             getAllFiles_step (getAllFiles remote f o r) it acc
             = Some (res1, t1) ->
             getAllFiles_step (getAllFiles remote f' o r) it acc
             = Some (res1, t1)).
  { unfold getAllFiles_step. intros res1 t1.
    destruct (field_is (item_type it) "file"); trivial.
    destruct (field_is (item_type it) "dir"); trivial.
    intros H. apply bind_inv in H
      as [(e & Hm & ->)|(sub & t1' & t2' & Hm & Hret & ->)];
      apply IH in Hm; rewrite Hm; trivial.
    rewrite bind_ret. now rewrite Hret. }
  apply bind_inv in Hrun
    as [(e & Hm & ->)|(acc' & t1 & t2 & Hm & Hrest & ->)];
    apply Hstep in Hm; rewrite Hm; trivial.
  rewrite bind_ret. now rewrite (IHitems _ _ _ Hrest).
Qed.

Lemma walk_mono (f : nat) :
  forall f' p res t,
    f <= f' ->
    getAllFiles remote f o r p = Some (res, t) ->
    getAllFiles remote f' o r p = Some (res, t).
Proof.
  induction f as [|f IH]; intros f' p res t Hle Hrun; [discriminate|].
  destruct f' as [|f']; [lia|].
  simpl in *. rewrite getRepoContents_value, bind_ret in *.
  destruct (for_of _ (getAllFiles_step (getAllFiles remote f o r)) _)
    as [[res1 t1]|] eqn:Hloop; [|discriminate].
  apply (walk_loop_mono f f') in Hloop.
  - now rewrite Hloop.
  - intros q res' t' H. apply IH; [lia | exact H].
Qed.

End Fuel.

(** Once the walk returns within a bound, it returns the same files and
    the same trace within every larger bound, and so do the two handlers
    that walk: the bound of the model is not seen in any answer. *)
Theorem answers_independent_of_fuel
    (remote : string -> string -> string -> response)
    (base64_utf8 : string -> outcome string) (a : context_args)
    (fuel fuel' : nat) (out : list file) (t : list event) :
  getAllFiles remote fuel (owner a) (repo a) "" = Some (Ret out, t) ->
  fuel <= fuel' ->
  getAllFiles remote fuel' (owner a) (repo a) "" = Some (Ret out, t)
  /\ get_repo_structure remote fuel' (owner a) (repo a)
     = get_repo_structure remote fuel (owner a) (repo a)
  /\ get_repo_context remote base64_utf8 fuel' a
     = get_repo_context remote base64_utf8 fuel a.
Proof.
  intros Hrun Hle.
  pose proof (walk_mono remote (owner a) (repo a) fuel fuel' "" _ _ Hle Hrun)
    as Hrun'.
  split; [exact Hrun'|]. split.
  - now rewrite !get_repo_structure_value, Hrun, Hrun'.
  - unfold get_repo_context. now rewrite Hrun, Hrun'.
Qed.

Lemma answers_independent_of_fuel_witness :
  exists out t,
    getAllFiles Sample.remote 2 "acme" "demo" "" = Some (Ret out, t)
    /\ getAllFiles Sample.remote 7 "acme" "demo" "" = Some (Ret out, t)
    /\ get_repo_structure Sample.remote 7 "acme" "demo"
       = get_repo_structure Sample.remote 2 "acme" "demo"
    /\ get_repo_context Sample.remote Sample.decode 7 Sample.args
       = get_repo_context Sample.remote Sample.decode 2 Sample.args.
Proof.
  eexists. eexists. split; [vm_compute; reflexivity|].
  eapply (answers_independent_of_fuel Sample.remote Sample.decode
            Sample.args 2 7).
  - vm_compute. reflexivity.
  - lia.
Defined.

(** ** The outer [catch] of get-file-content is never reached *)

(** X2.  [getFileContent] catches every exception of the remote call and
    of the decoding, and nothing after it in the handler can throw: so
    get-file-content always answers with the could-not-retrieve text or
    with the fenced, non-empty content that was fetched, and the line of
    its own [catch] is never written. *)
Theorem file_content_answer_forms
    (remote : string -> string -> string -> response)
    (base64_utf8 : string -> outcome string) (o r p : string) :
  exists s t,
    get_file_content remote base64_utf8 o r p = Some (Ret (text_result s), t)
    /\ (s = could_not_retrieve o r p
        \/ exists c, c <> ""
                     /\ fetched base64_utf8 (remote o r p) = Some c
                     /\ s = fenced p c)
    /\ (forall e,
          ~ In (ConsoleError ("Error fetching file content for " ++ p ++ ":")
                             (Some e)) t).
Proof.
  rewrite get_file_content_value. eexists. eexists.
  split; [reflexivity|]. split.
  - destruct (fetched base64_utf8 (remote o r p)) as [c|]; [|now left].
    destruct (String.eqb_spec c ""); [now left|]. right. now exists c.
  - intros e [H|H]; [discriminate|].
    destruct (fetch_failure base64_utf8 (remote o r p)) as [e'|];
      [|contradiction].
    destruct H as [H|[]]. unfold content_error in H. simpl in H.
    discriminate.
Qed.

(** ** A path that names a single object *)

(** X3.  When the remote describes a path by a single object instead of a
    listing, the walk of that path treats the object as a one-entry
    listing: a file gives that one record, an object of another type or
    without type gives nothing; one call is made and nothing is logged. *)
Theorem walk_of_single_object
    (remote : string -> string -> string -> response)
    (o r p : string) (it : item) (fuel : nat) :
  remote o r p = Resolved (DataObject it) ->
  item_type it <> Some "dir" ->
  getAllFiles remote (S fuel) o r p
  = Some (Ret (if field_is (item_type it) "file"
               then [as_file (item_path it)] else []),
          [Call o r p]).
Proof.
  intros Hr Hd. simpl getAllFiles. rewrite getRepoContents_value, Hr.
  simpl listing. destruct (item_type it) as [ty|] eqn:Et; [|reflexivity].
  rewrite bind_ret. simpl for_of. unfold getAllFiles_step. rewrite Et.
  simpl field_is. destruct (ty =? "file"); [reflexivity|].
  destruct (String.eqb_spec ty "dir") as [->|_]; [congruence | reflexivity].
Qed.

Lemma walk_of_single_object_witness :
  getAllFiles Sample.remote 1 "acme" "demo" "README.md"
  = Some (Ret (if field_is (Some "file") "file"
               then [as_file "README.md"] else []),
          [Call "acme" "demo" "README.md"]).
Proof.
  apply (walk_of_single_object Sample.remote "acme" "demo" "README.md"
           {| item_type := Some "file"; item_path := "README.md";
              item_content := Some "IyBkZW1v";
              item_encoding := Some "base64" |} 0).
  - reflexivity.
  - discriminate.
Defined.

(** ** No cycle detection *)

(** X4.  The walk follows whatever path a ['dir'] entry names.  When the
    remote describes a path by a ['dir'] object whose path is that same
    path, the walk of it never returns, within any bound. *)
Theorem walk_of_self_directory_diverges
    (remote : string -> string -> string -> response)
    (o r p : string) (it : item) (fuel : nat) :
  remote o r p = Resolved (DataObject it) ->
  item_type it = Some "dir" ->
  item_path it = p ->
  getAllFiles remote fuel o r p = None.
Proof.
  intros Hr Ht Hp. induction fuel as [|fuel IH]; [reflexivity|].
  simpl getAllFiles. rewrite getRepoContents_value, Hr. simpl listing.
  rewrite Ht, bind_ret. simpl for_of.
  now rewrite (step_dir _ _ _ Ht), Hp, IH.
Qed.

Lemma walk_of_self_directory_diverges_witness :
  getAllFiles Sample.cyclic 9 "acme" "demo" "src" = None.
Proof.
  apply (walk_of_self_directory_diverges Sample.cyclic "acme" "demo" "src"
           (Sample.entry "dir" "src") 9); reflexivity.
Defined.

(** ** One remote call for get-file-content *)

(** X5.  get-file-content makes exactly one remote call.  It writes a
    diagnostic line when that call is rejected; a listing, or an object
    whose encoding is not base64, is answered as not retrievable without
    any diagnostic line. *)
Theorem file_content_one_call
    (remote : string -> string -> string -> response)
    (base64_utf8 : string -> outcome string) (o r p : string) :
  exists res diag,
    get_file_content remote base64_utf8 o r p
    = Some (Ret res, Call o r p :: diag)
    /\ called_paths (Call o r p :: diag) = [p]
    /\ (forall e, remote o r p = Rejected e ->
          diag = [content_error o r p e]
          /\ res = text_result (could_not_retrieve o r p))
    /\ (forall items, remote o r p = Resolved (DataArray items) ->
          diag = [] /\ res = text_result (could_not_retrieve o r p))
    /\ (forall it, remote o r p = Resolved (DataObject it) ->
          item_encoding it <> Some "base64" ->
          diag = [] /\ res = text_result (could_not_retrieve o r p)).
Proof.
  rewrite get_file_content_value. eexists. eexists.
  split; [reflexivity|]. split; [|split; [|split]].
  - simpl. now destruct (fetch_failure base64_utf8 (remote o r p)).
  - intros e ->. now split.
  - intros items ->. now split.
  - intros it -> He. simpl.
    destruct (item_content it) as [c|], (item_encoding it) as [enc|];
      try now split.
    destruct (String.eqb_spec enc "base64") as [->|_]; [congruence|].
    now split.
Qed.

(** ** What get-repo-context renders and fetches *)

Lemma filter_all {A} (f : A -> bool) (l : list A) :
  Forall (fun x => f x = true) l -> filter f l = l.
Proof. induction 1 as [|x l Hx _ IH]; simpl; [|rewrite Hx, IH]; trivial. Qed.

Lemma walk_types (remote : string -> string -> string -> response)
    (fuel : nat) (o r p : string) (out : list file) (t : list event) :
  getAllFiles remote fuel o r p = Some (Ret out, t) ->
  Forall (fun f => file_type f = "file") out.
Proof.
  intros H.
  destruct (walk_sound remote o r p fuel p (visited_root _ _ _ _) out t H)
    as [Hout _].
  apply Forall_forall. intros f Hf. rewrite Forall_forall in Hout.
  now destruct (Hout f Hf).
Qed.

Lemma block_fenced (path c : string) :
  block {| fc_path := path; fc_content := Some c |}
  = fenced path c ++ JS.nl ++ JS.nl.
Proof.
  unfold block, fenced. cbn [fc_path fc_content str].
  now rewrite !append_assoc.
Qed.

Lemma selected_length (excludePaths fileExtensions : list string) (N : Z)
    (allFiles : list file) :
  (0 <= N)%Z ->
  (Z.of_nat (List.length
               (selectFiles excludePaths fileExtensions N allFiles)) <= N)%Z.
Proof.
  intros HN. unfold selectFiles. rewrite slice0_firstn by assumption.
  pose proof (firstn_le_length (Z.to_nat N)
                (filter (keep_file excludePaths fileExtensions) allFiles)).
  lia.
Qed.

Section Context.

Variable remote : string -> string -> string -> response.
Variable base64_utf8 : string -> outcome string.
Variables o r : string.

Lemma blocks_of_records (fs : list file) :
  Forall (fun f => file_type f = "file") fs ->
  map block (filter has_content (fetch_records remote base64_utf8 o r fs))
  = rendered_blocks remote base64_utf8 o r fs.
Proof.
  unfold fetch_records, rendered_blocks.
  induction 1 as [|f fs Hf _ IH]; [reflexivity|].
  simpl. rewrite Hf. simpl. unfold has_content at 1. simpl.
  destruct (fetched base64_utf8 (remote o r (file_path f))) as [c|]; simpl.
  - now rewrite block_fenced, IH.
  - exact IH.
Qed.

Lemma fetch_loop_trace (fs : list file) :
  forall acc,
    for_of fs (fetch_step remote base64_utf8 o r) acc
    = Some (Ret (acc ++ fetch_records remote base64_utf8 o r fs)%list,
            fetch_trace remote base64_utf8 o r fs).
Proof.
  unfold fetch_records, fetch_trace.
  induction fs as [|f fs IH]; intros acc; simpl.
  - unfold ret. now rewrite app_nil_r.
  - unfold fetch_step at 1. destruct (file_type f =? "file").
    + rewrite getFileContent_value. rewrite !bind_ret. unfold ret at 1.
      rewrite bind_ret, IH. simpl. rewrite <- !app_assoc. reflexivity.
    + unfold ret at 1. rewrite bind_ret, IH. reflexivity.
Qed.

Lemma called_paths_app (t1 t2 : list event) :
  called_paths (t1 ++ t2) = (called_paths t1 ++ called_paths t2)%list.
Proof. unfold called_paths. apply flat_map_app. Qed.

Lemma fetch_trace_calls (fs : list file) :
  Forall (fun f => file_type f = "file") fs ->
  called_paths (fetch_trace remote base64_utf8 o r fs) = map file_path fs.
Proof.
  unfold fetch_trace.
  induction 1 as [|f fs Hf _ IH]; [reflexivity|].
  simpl flat_map. rewrite called_paths_app, IH, Hf. simpl.
  now destruct (fetch_failure base64_utf8 (remote o r (file_path f))).
Qed.

End Context.

Lemma rendered_blocks_length
    (remote : string -> string -> string -> response)
    (base64_utf8 : string -> outcome string) (o r : string)
    (fs : list file) :
  List.length (rendered_blocks remote base64_utf8 o r fs) <= List.length fs.
Proof.
  unfold rendered_blocks. induction fs as [|f fs IH]; [apply le_n|].
  cbn [flat_map]. rewrite length_app. cbn [List.length].
  destruct (fetched base64_utf8 (remote o r (file_path f)));
    cbn [List.length]; lia.
Qed.

(** The run of get-repo-context, from what the walk returns. *)
Lemma get_repo_context_run
    (remote : string -> string -> string -> response)
    (base64_utf8 : string -> outcome string) (fuel : nat)
    (a : context_args) (allFiles : list file) (t : list event) :
  getAllFiles remote fuel (owner a) (repo a) "" = Some (Ret allFiles, t) ->
  let selected :=
    selectFiles (default (excludePaths a) ["node_modules"; "dist"; "build"])
      (default (fileExtensions a) []) (default (maxFiles a) 50%Z) allFiles in
  get_repo_context remote base64_utf8 fuel a
  = Some (Ret (text_result
                 (context_header (owner a) (repo a)
                  ++ formatContent
                       (fetch_records remote base64_utf8 (owner a) (repo a)
                          selected))),
          (fetching_line (owner a) (repo a) :: t
           ++ found_line (List.length allFiles)
           :: selected_line (List.length selected)
           :: fetch_trace remote base64_utf8 (owner a) (repo a) selected)%list).
Proof.
  intros Hrun selected. subst selected.
  unfold get_repo_context, context_header. rewrite Hrun.
  unfold console_error, emit. rewrite !bind_ret.
  rewrite (fetch_loop_trace remote base64_utf8 (owner a) (repo a) _ []).
  unfold ret, try_catch. rewrite bind_ret. cbv beta iota.
  unfold fetching_line, found_line, selected_line.
  rewrite !append_assoc. simpl app. now rewrite app_nil_r.
Qed.

(** X6.  The text of get-repo-context is its header followed by one block for
    each selected file whose content is fetched, in the order of the
    selection, joined by the separator; each block is the fenced text
    that get-file-content uses, followed by an empty line.  A file whose
    content is not fetched leaves no mark, and with [maxFiles >= 0]
    there are at most [maxFiles] blocks. *)
Theorem context_text
    (remote : string -> string -> string -> response)
    (base64_utf8 : string -> outcome string) (fuel : nat)
    (a : context_args) (allFiles : list file) (t : list event) :
  getAllFiles remote fuel (owner a) (repo a) "" = Some (Ret allFiles, t) ->
  let N := default (maxFiles a) 50%Z in
  let selected :=
    selectFiles (default (excludePaths a) ["node_modules"; "dist"; "build"])
      (default (fileExtensions a) []) N allFiles in
  let blocks :=
    rendered_blocks remote base64_utf8 (owner a) (repo a) selected in
  (exists t',
      get_repo_context remote base64_utf8 fuel a
      = Some (Ret (text_result (context_header (owner a) (repo a)
                                ++ JS.join separator blocks)), t'))
  /\ List.length blocks <= List.length selected
  /\ ((0 <= N)%Z -> (Z.of_nat (List.length blocks) <= N)%Z).
Proof.
  intros Hrun N selected blocks.
  assert (Hty : Forall (fun f => file_type f = "file") selected).
  { pose proof (walk_types _ _ _ _ _ _ _ Hrun) as Hall.
    rewrite Forall_forall in *. intros f Hf. apply Hall.
    now apply selected_kept in Hf. }
  assert (Hlen : List.length blocks <= List.length selected)
    by apply rendered_blocks_length.
  split; [|split]; trivial.
  - eexists. rewrite (get_repo_context_run _ _ _ _ _ _ Hrun).
    unfold formatContent. fold N selected.
    now rewrite (blocks_of_records _ _ _ _ _ Hty).
  - intros HN.
    pose proof (selected_length
                  (default (excludePaths a) ["node_modules"; "dist"; "build"])
                  (default (fileExtensions a) []) N allFiles HN) as H.
    fold selected in H. lia.
Qed.

Lemma context_text_witness :
  exists allFiles t,
    getAllFiles Sample.remote 2 "acme" "demo" "" = Some (Ret allFiles, t)
    /\ (exists t',
           get_repo_context Sample.remote Sample.decode 2 Sample.args
           = Some (Ret (text_result
                          (context_header "acme" "demo"
                           ++ JS.join separator
                                (rendered_blocks Sample.remote Sample.decode
                                   "acme" "demo"
                                   (selectFiles
                                      ["node_modules"; "dist"; "build"] []
                                      50 allFiles)))), t'))
    /\ List.length
         (rendered_blocks Sample.remote Sample.decode "acme" "demo"
            (selectFiles ["node_modules"; "dist"; "build"] [] 50 allFiles))
       <= List.length
            (selectFiles ["node_modules"; "dist"; "build"] [] 50 allFiles)
    /\ ((0 <= 50)%Z ->
        (Z.of_nat
           (List.length
              (rendered_blocks Sample.remote Sample.decode "acme" "demo"
                 (selectFiles ["node_modules"; "dist"; "build"] [] 50
                    allFiles))) <= 50)%Z).
Proof.
  eexists. eexists. split; [vm_compute; reflexivity|].
  eapply (context_text Sample.remote Sample.decode 2 Sample.args).
  vm_compute. reflexivity.
Defined.

Example context_blocks_ex :
  rendered_blocks Sample.remote Sample.decode "acme" "demo"
    (map as_file ["src/a.ts"; "LICENSE"; "empty.txt"])
  = [fenced "src/a.ts" "let a" ++ JS.nl ++ JS.nl;
     fenced "empty.txt" "" ++ JS.nl ++ JS.nl].
Proof. reflexivity. Qed.

Lemma selected_types
    (remote : string -> string -> string -> response)
    (fuel : nat) (o r p : string) (allFiles : list file) (t : list event)
    (excludePaths fileExtensions : list string) (N : Z) :
  getAllFiles remote fuel o r p = Some (Ret allFiles, t) ->
  Forall (fun f => file_type f = "file")
         (selectFiles excludePaths fileExtensions N allFiles).
Proof.
  intros Hrun. pose proof (walk_types _ _ _ _ _ _ _ Hrun) as Hall.
  rewrite Forall_forall in *. intros f Hf. apply Hall.
  now apply selected_kept in Hf.
Qed.

(** X7.  The remote calls of get-repo-context are those of the walk followed
    by one content call for each selected file, in the order of the
    selection: a file that the filter or the truncation removes is never
    fetched, so with [maxFiles >= 0] at most [maxFiles] content calls
    are made. *)
Theorem context_calls
    (remote : string -> string -> string -> response)
    (base64_utf8 : string -> outcome string) (fuel : nat)
    (a : context_args) (allFiles : list file) (t : list event) :
  getAllFiles remote fuel (owner a) (repo a) "" = Some (Ret allFiles, t) ->
  let N := default (maxFiles a) 50%Z in
  let selected :=
    selectFiles (default (excludePaths a) ["node_modules"; "dist"; "build"])
      (default (fileExtensions a) []) N allFiles in
  exists res t',
    get_repo_context remote base64_utf8 fuel a = Some (Ret res, t')
    /\ called_paths t'
       = (called_paths t ++ map file_path selected)%list
    /\ ((0 <= N)%Z ->
        List.length (called_paths t')
        <= List.length (called_paths t) + Z.to_nat N).
Proof.
  intros Hrun N selected.
  pose proof (selected_types _ _ _ _ _ _ _
                (default (excludePaths a) ["node_modules"; "dist"; "build"])
                (default (fileExtensions a) []) N Hrun) as Hty.
  fold selected in Hty.
  assert (Hcalls :
    called_paths
      (fetching_line (owner a) (repo a) :: t
       ++ found_line (List.length allFiles)
       :: selected_line (List.length selected)
       :: fetch_trace remote base64_utf8 (owner a) (repo a) selected)%list
    = (called_paths t ++ map file_path selected)%list).
  { change (fetching_line (owner a) (repo a) :: t ++ ?x)%list
      with ([fetching_line (owner a) (repo a)] ++ t ++ x)%list.
    rewrite !called_paths_app.
    change (found_line ?n :: selected_line ?m :: ?x)
      with ([found_line n; selected_line m] ++ x)%list.
    rewrite called_paths_app, fetch_trace_calls by assumption.
    reflexivity. }
  eexists. eexists. split; [|split].
  - apply (get_repo_context_run _ _ _ _ _ _ Hrun).
  - exact Hcalls.
  - intros HN. fold N selected. rewrite Hcalls, length_app, length_map.
    pose proof (selected_length
                  (default (excludePaths a) ["node_modules"; "dist"; "build"])
                  (default (fileExtensions a) []) N allFiles HN) as H.
    fold selected in H. lia.
Qed.

Lemma context_calls_witness :
  exists allFiles t,
    getAllFiles Sample.remote 2 "acme" "demo" "" = Some (Ret allFiles, t)
    /\ exists res t',
         get_repo_context Sample.remote Sample.decode 2 Sample.args
         = Some (Ret res, t')
         /\ called_paths t'
            = (called_paths t
               ++ map file_path
                    (selectFiles ["node_modules"; "dist"; "build"] [] 50
                       allFiles))%list
         /\ ((0 <= 50)%Z ->
             List.length (called_paths t')
             <= List.length (called_paths t) + Z.to_nat 50).
Proof.
  eexists. eexists. split; [vm_compute; reflexivity|].
  eapply (context_calls Sample.remote Sample.decode 2 Sample.args).
  vm_compute. reflexivity.
Defined.

(** ** One remote call for each directory *)

Lemma node_trace_calls (o r : string) (n : node) :
  called_paths (node_trace o r n) = dirs n.
Proof.
  induction n as [p|q sub IH|p e|p] using node_induction; trivial.
  cbn [node_trace dirs].
  change (Call o r q :: ?x) with ([Call o r q] ++ x)%list.
  rewrite called_paths_app. cbn [called_paths flat_map app]. f_equal.
  induction IH as [|c sub Hc _ IHsub]; [reflexivity|].
  cbn [flat_map]. now rewrite called_paths_app, Hc, IHsub.
Qed.

(** X8.  The walk of a served tree calls the remote once for the root and
    once for each directory of the tree, in pre-order, and never for a
    file or an entry of another type. *)
Theorem walk_calls_directories
    (remote : string -> string -> string -> response)
    (o r root : string) (cs : list node) (fuel : nat) :
  serves remote o r root cs = true ->
  forest_height cs < fuel ->
  exists out t,
    getAllFiles remote fuel o r root = Some (Ret out, t)
    /\ called_paths t = root :: flat_map dirs cs
    /\ List.length (called_paths t) = S (List.length (flat_map dirs cs)).
Proof.
  intros Hs Hh.
  exists (map as_file (forest_files cs)), (walk_trace o r root cs).
  split; [now apply walk_served|].
  assert (E : called_paths (walk_trace o r root cs) = root :: flat_map dirs cs).
  { unfold walk_trace.
    change (Call o r root :: ?x) with ([Call o r root] ++ x)%list.
    rewrite called_paths_app. cbn [called_paths flat_map app]. f_equal.
    clear. induction cs as [|c cs IH]; [reflexivity|].
    cbn [flat_map]. now rewrite called_paths_app, node_trace_calls, IH. }
  split; [exact E | now rewrite E].
Qed.

Lemma walk_calls_directories_witness :
  exists out t,
    getAllFiles Sample.remote 2 "acme" "demo" "" = Some (Ret out, t)
    /\ called_paths t = "" :: flat_map dirs Sample.tree
    /\ List.length (called_paths t)
       = S (List.length (flat_map dirs Sample.tree)).
Proof.
  apply (walk_calls_directories Sample.remote "acme" "demo" "" Sample.tree 2).
  - reflexivity.
  - vm_compute. lia.
Defined.

(** ** The structure listing does not depend on the order of the walk *)

Lemma sort_of_permutation (l1 l2 : list string) :
  Permutation l1 l2 -> JS.sort l1 = JS.sort l2.
Proof.
  intros H. apply sorted_unique; try apply sort_sorted.
  rewrite !sort_perm. exact H.
Qed.

Lemma permutation_of_sort (l1 l2 : list string) :
  JS.sort l1 = JS.sort l2 -> Permutation l1 l2.
Proof.
  intros H. rewrite <- (sort_perm l1), <- (sort_perm l2). now rewrite H.
Qed.

(** X9.  Two walks that return the same paths in different orders (the
    remote listing its entries in another order) give the same answer of
    get-repo-structure. *)
Theorem structure_order_independent
    (remote1 remote2 : string -> string -> string -> response)
    (fuel1 fuel2 : nat) (o r : string) (fs1 fs2 : list file)
    (t1 t2 : list event) :
  getAllFiles remote1 fuel1 o r "" = Some (Ret fs1, t1) ->
  getAllFiles remote2 fuel2 o r "" = Some (Ret fs2, t2) ->
  Permutation (map file_path fs1) (map file_path fs2) ->
  exists res,
    get_repo_structure remote1 fuel1 o r = Some (Ret res, t1)
    /\ get_repo_structure remote2 fuel2 o r = Some (Ret res, t2).
Proof.
  intros H1 H2 Hp. rewrite !get_repo_structure_value, H1, H2.
  rewrite (sort_of_permutation _ _ Hp). eauto.
Qed.

Lemma structure_order_independent_witness :
  exists fs1 fs2 t1 t2,
    getAllFiles Sample.remote 2 "acme" "demo" "" = Some (Ret fs1, t1)
    /\ getAllFiles Sample.reordered 2 "acme" "demo" "" = Some (Ret fs2, t2)
    /\ fs1 <> fs2
    /\ exists res,
         get_repo_structure Sample.remote 2 "acme" "demo"
         = Some (Ret res, t1)
         /\ get_repo_structure Sample.reordered 2 "acme" "demo"
            = Some (Ret res, t2).
Proof.
  eexists. eexists. eexists. eexists.
  split; [vm_compute; reflexivity|].
  split; [vm_compute; reflexivity|].
  split; [discriminate|].
  eapply (structure_order_independent Sample.remote Sample.reordered 2 2
            "acme" "demo").
  - vm_compute. reflexivity.
  - vm_compute. reflexivity.
  - apply permutation_of_sort. vm_compute. reflexivity.
Defined.

(** ** Edges of the filter *)

Lemma filter_none {A} (f : A -> bool) (l : list A) :
  (forall x, In x l -> f x = false) -> filter f l = [].
Proof.
  induction l as [|x l IH]; intros H; [reflexivity|].
  simpl. rewrite (H x) by now left. apply IH. intros y Hy. apply H. now right.
Qed.

Lemma slice0_nil {A} (n : Z) : JS.slice0 (@nil A) n = [].
Proof. unfold JS.slice0. destruct (n <? 0)%Z; apply firstn_nil. Qed.

Lemma select_none (excludePaths fileExtensions : list string) (N : Z)
    (allFiles : list file) :
  (forall f, keep_file excludePaths fileExtensions f = false) ->
  selectFiles excludePaths fileExtensions N allFiles = [].
Proof.
  intros H. unfold selectFiles. rewrite filter_none; [apply slice0_nil|].
  intros f _. apply H.
Qed.

(** X10.  An extension is compared with what follows the last dot of a path,
    so a listed extension that itself contains a dot (a leading dot, or
    two parts) matches no file: when every listed extension is of that
    kind, nothing is selected. *)
Theorem dotted_extensions_select_nothing
    (excludePaths fileExtensions : list string) (N : Z)
    (allFiles : list file) :
  fileExtensions <> [] ->
  (forall e, In e fileExtensions -> dot_free e = false) ->
  selectFiles excludePaths fileExtensions N allFiles = [].
Proof.
  intros Hne Hdots. apply select_none. intros f.
  destruct (keep_file excludePaths fileExtensions f) eqn:E; trivial.
  apply (keep_file_iff _ _ _ Hne) in E as [_ (e & He & Hfree & _)].
  rewrite (Hdots e He) in Hfree. discriminate.
Qed.

Lemma dotted_extensions_select_nothing_witness :
  selectFiles [] [".md"; "tar.gz"] 50 (map as_file ["README.md"; "a.tar.gz"])
  = [].
Proof.
  apply (dotted_extensions_select_nothing [] [".md"; "tar.gz"] 50
           (map as_file ["README.md"; "a.tar.gz"])).
  - discriminate.
  - intros e [<-|[<-|[]]]; reflexivity.
Defined.

(** X11.  The empty string occurs in every path: listing it in [excludePaths]
    excludes every file. *)
Theorem empty_exclude_selects_nothing
    (excludePaths fileExtensions : list string) (N : Z)
    (allFiles : list file) :
  In "" excludePaths ->
  selectFiles excludePaths fileExtensions N allFiles = [].
Proof.
  intros Hin. apply select_none. intros f. unfold keep_file.
  assert (E : existsb (fun x => JS.includes (file_path f) x) excludePaths
              = true).
  { apply existsb_exists. exists "". split; trivial.
    apply includes_iff. now exists "", (file_path f). }
  now rewrite E.
Qed.

Lemma empty_exclude_selects_nothing_witness :
  selectFiles ["dist"; ""] [] 50 (map as_file ["README.md"; "src/a.ts"]) = [].
Proof.
  apply (empty_exclude_selects_nothing ["dist"; ""] [] 50
           (map as_file ["README.md"; "src/a.ts"])).
  simpl. auto.
Defined.

(** X12.  The values of [maxFiles] at its edges: zero selects nothing, a count
    that reaches the number of surviving files selects them all, and a
    negative count, which [slice] reads from the end, drops that many of
    the last surviving files. *)
Theorem maxFiles_edges
    (excludePaths fileExtensions : list string) (N : Z)
    (allFiles : list file) :
  let survivors := filter (keep_file excludePaths fileExtensions) allFiles in
  let selected := selectFiles excludePaths fileExtensions N allFiles in
  (N = 0%Z -> selected = [])
  /\ ((Z.of_nat (List.length survivors) <= N)%Z -> selected = survivors)
  /\ ((N < 0)%Z ->
      selected
      = firstn (List.length survivors - Z.to_nat (- N)) survivors
      /\ List.length selected = List.length survivors - Z.to_nat (- N)).
Proof.
  intros survivors selected. unfold selected, selectFiles. fold survivors.
  split; [|split].
  - intros ->. reflexivity.
  - intros H. rewrite slice0_firstn by lia. apply firstn_all2. lia.
  - intros H. unfold JS.slice0. destruct (Z.ltb_spec N 0); [|lia].
    replace (Z.to_nat (Z.max (Z.of_nat (List.length survivors) + N) 0))
      with (List.length survivors - Z.to_nat (- N)) by lia.
    split; trivial. rewrite length_firstn. lia.
Qed.

(** X13.  The filter reads its two lists as sets: lists with the same elements
    select the same files. *)
Theorem criteria_as_sets
    (excl excl' exts exts' : list string) (N : Z) (allFiles : list file) :
  (forall x, In x excl <-> In x excl') ->
  (forall x, In x exts <-> In x exts') ->
  selectFiles excl exts N allFiles = selectFiles excl' exts' N allFiles.
Proof.
  intros Hx He. unfold selectFiles. f_equal. apply filter_ext. intros f.
  unfold keep_file.
  assert (E1 : existsb (fun x => JS.includes (file_path f) x) excl
               = existsb (fun x => JS.includes (file_path f) x) excl').
  { apply eq_true_iff_eq. rewrite !existsb_exists.
    split; intros (x & Hin & H); exists x; split; trivial; now apply Hx. }
  rewrite E1. destruct (existsb _ excl'); trivial.
  assert (E2 : forall e, JS.arr_includes exts e = JS.arr_includes exts' e).
  { intros e. apply eq_true_iff_eq. rewrite !arr_includes_iff. apply He. }
  destruct exts as [|e0 es], exts' as [|e0' es']; trivial.
  - exfalso. apply (He e0'). now left.
  - exfalso. apply (He e0). now left.
Qed.

Lemma criteria_as_sets_witness :
  selectFiles ["dist"; "node_modules"; "dist"] ["md"; "ts"; "md"] 50
    (map as_file (forest_files Sample.tree))
  = selectFiles ["node_modules"; "dist"] ["ts"; "md"] 50
      (map as_file (forest_files Sample.tree)).
Proof.
  apply (criteria_as_sets ["dist"; "node_modules"; "dist"]
           ["node_modules"; "dist"] ["md"; "ts"; "md"] ["ts"; "md"] 50
           (map as_file (forest_files Sample.tree)));
    intros x; simpl; tauto.
Defined.

(** ** A repository that cannot be listed *)

Lemma select_nil (excludePaths fileExtensions : list string) (N : Z) :
  selectFiles excludePaths fileExtensions N [] = [].
Proof. unfold selectFiles. simpl filter. apply slice0_nil. Qed.

(** X14.  When the listing of the root is rejected (no such repository, no
    access, a rate limit), get-repo-structure and get-repo-context do not
    report an error: each answers with its bare header, after the
    diagnostic line of the failed listing. *)
Theorem unlisted_repository_answers_header
    (remote : string -> string -> string -> response)
    (base64_utf8 : string -> outcome string) (fuel : nat)
    (a : context_args) (e : error) :
  remote (owner a) (repo a) "" = Rejected e ->
  get_repo_structure remote (S fuel) (owner a) (repo a)
  = Some (Ret (text_result (structure_header (owner a) (repo a))),
          [Call (owner a) (repo a) "";
           contents_error (owner a) (repo a) "" e])
  /\ get_repo_context remote base64_utf8 (S fuel) a
     = Some (Ret (text_result (context_header (owner a) (repo a))),
             [fetching_line (owner a) (repo a);
              Call (owner a) (repo a) "";
              contents_error (owner a) (repo a) "" e;
              found_line 0; selected_line 0]).
Proof.
  intros Hr.
  assert (Hwalk : getAllFiles remote (S fuel) (owner a) (repo a) ""
                  = Some (Ret [], [Call (owner a) (repo a) "";
                                   contents_error (owner a) (repo a) "" e])).
  { simpl getAllFiles. now rewrite getRepoContents_value, Hr. }
  split.
  - rewrite get_repo_structure_value, Hwalk. cbn [map JS.sort JS.join].
    simpl String.concat. now rewrite append_empty_r.
  - rewrite (get_repo_context_run _ _ _ _ _ _ Hwalk). rewrite select_nil.
    unfold formatContent, fetch_records, fetch_trace. simpl filter.
    simpl map. simpl flat_map. unfold JS.join. simpl String.concat.
    now rewrite append_empty_r.
Qed.

Lemma unlisted_repository_answers_header_witness :
  get_repo_structure Sample.remote 1 "nobody" "nothing"
  = Some (Ret (text_result (structure_header "nobody" "nothing")),
          [Call "nobody" "nothing" "";
           contents_error "nobody" "nothing" "" "Not Found"])
  /\ get_repo_context Sample.remote Sample.decode 1
       {| owner := "nobody"; repo := "nothing"; maxFiles := None;
          fileExtensions := None; excludePaths := None |}
     = Some (Ret (text_result (context_header "nobody" "nothing")),
             [fetching_line "nobody" "nothing";
              Call "nobody" "nothing" "";
              contents_error "nobody" "nothing" "" "Not Found";
              found_line 0; selected_line 0]).
Proof.
  apply (unlisted_repository_answers_header Sample.remote Sample.decode 0
           {| owner := "nobody"; repo := "nothing"; maxFiles := None;
              fileExtensions := None; excludePaths := None |} "Not Found").
  reflexivity.
Defined.

(** ** A content call that fails *)

Section Local.

Variables remote remote' : string -> string -> string -> response.
Variables o r : string.

Lemma walk_loop_local (f : nat) :
  (forall p res t,
      getAllFiles remote f o r p = Some (res, t) ->
      (forall q, In q (called_paths t) -> remote' o r q = remote o r q) ->
      getAllFiles remote' f o r p = Some (res, t)) ->
  forall items acc res t,
    for_of items (getAllFiles_step (getAllFiles remote f o r)) acc
    = Some (res, t) ->
    (forall q, In q (called_paths t) -> remote' o r q = remote o r q) ->
    for_of items (getAllFiles_step (getAllFiles remote' f o r)) acc
    = Some (res, t).
Proof.
  intros IH. induction items as [|it items IHitems];
    intros acc res t Hrun Hagree; [exact Hrun|].
  simpl in *.
  assert (Hstep : forall res1 t1,
             getAllFiles_step (getAllFiles remote f o r) it acc
             = Some (res1, t1) ->
             (forall q, In q (called_paths t1) ->
                        remote' o r q = remote o r q) ->
             getAllFiles_step (getAllFiles remote' f o r) it acc
             = Some (res1, t1)).
  { unfold getAllFiles_step. intros res1 t1.
    destruct (field_is (item_type it) "file"); trivial.
    destruct (field_is (item_type it) "dir"); trivial.
    intros H Ha. apply bind_inv in H
      as [(e & Hm & ->)|(sub & t1' & t2' & Hm & Hret & ->)].
    - apply IH in Hm; trivial. now rewrite Hm.
    - apply IH in Hm.
      + rewrite Hm, bind_ret. now rewrite Hret.
      + intros q Hq. apply Ha. rewrite called_paths_app.
        apply in_or_app. now left. }
  apply bind_inv in Hrun
    as [(e & Hm & ->)|(acc' & t1 & t2 & Hm & Hrest & ->)].
  - apply Hstep in Hm; trivial. now rewrite Hm.
  - apply Hstep in Hm.
    + rewrite Hm, bind_ret. rewrite (IHitems _ _ _ Hrest); trivial.
      intros q Hq. apply Hagree. rewrite called_paths_app.
      apply in_or_app. now right.
    + intros q Hq. apply Hagree. rewrite called_paths_app.
      apply in_or_app. now left.
Qed.

(** The walk depends on the remote only at the paths it calls. *)
Lemma walk_local (f : nat) :
  forall p res t,
    getAllFiles remote f o r p = Some (res, t) ->
    (forall q, In q (called_paths t) -> remote' o r q = remote o r q) ->
    getAllFiles remote' f o r p = Some (res, t).
Proof.
  induction f as [|f IH]; intros p res t Hrun Hagree; [discriminate|].
  simpl in *. rewrite getRepoContents_value, bind_ret in Hrun.
  destruct (for_of _ (getAllFiles_step (getAllFiles remote f o r)) _)
    as [[res1 t1]|] eqn:Hloop; [|discriminate].
  injection Hrun as <- <-.
  assert (Hp : remote' o r p = remote o r p) by (apply Hagree; now left).
  rewrite getRepoContents_value, bind_ret, Hp.
  rewrite (walk_loop_local f IH _ _ _ _ Hloop); trivial.
  intros q Hq. apply Hagree.
  change (Call o r p :: ?x ++ t1)%list with ([Call o r p] ++ x ++ t1)%list.
  rewrite !called_paths_app. apply in_or_app. right.
  apply in_or_app. now right.
Qed.

End Local.

Lemma rendered_blocks_inject
    (remote : string -> string -> string -> response)
    (base64_utf8 : string -> outcome string) (o r p : string) (e : error)
    (fs : list file) :
  rendered_blocks (inject p e remote) base64_utf8 o r fs
  = rendered_blocks remote base64_utf8 o r
      (filter (fun f => negb (file_path f =? p)) fs).
Proof.
  unfold rendered_blocks. induction fs as [|f fs IH]; [reflexivity|].
  cbn [flat_map filter]. rewrite IH. unfold inject at 1.
  destruct (file_path f =? p); reflexivity.
Qed.

(** X15.  When the content call for one path [p] is rejected, and [p] is not a
    directory of the walk, get-repo-context still answers, with the
    blocks of all other selected files unchanged and in place: only the
    block of [p] is missing, and nothing in the text tells so. *)
Theorem content_failure_drops_one_block
    (remote : string -> string -> string -> response)
    (base64_utf8 : string -> outcome string) (fuel : nat)
    (a : context_args) (allFiles : list file) (t : list event)
    (p : string) (e : error) :
  getAllFiles remote fuel (owner a) (repo a) "" = Some (Ret allFiles, t) ->
  ~ In p (called_paths t) ->
  let selected :=
    selectFiles (default (excludePaths a) ["node_modules"; "dist"; "build"])
      (default (fileExtensions a) []) (default (maxFiles a) 50%Z) allFiles in
  exists t',
    get_repo_context (inject p e remote) base64_utf8 fuel a
    = Some (Ret (text_result
                   (context_header (owner a) (repo a)
                    ++ JS.join separator
                         (rendered_blocks remote base64_utf8
                            (owner a) (repo a)
                            (filter (fun f => negb (file_path f =? p))
                                    selected)))), t').
Proof.
  intros Hrun Hp selected.
  assert (Hrun' : getAllFiles (inject p e remote) fuel (owner a) (repo a) ""
                  = Some (Ret allFiles, t)).
  { apply (walk_local remote); trivial. intros q Hq. unfold inject.
    destruct (String.eqb_spec q p) as [->|_]; [contradiction | reflexivity]. }
  eexists. rewrite (get_repo_context_run _ _ _ _ _ _ Hrun').
  unfold formatContent. fold selected.
  rewrite blocks_of_records
    by (apply (selected_types _ _ _ _ _ _ _ _ _ _ Hrun)).
  now rewrite rendered_blocks_inject.
Qed.

Lemma content_failure_drops_one_block_witness :
  exists allFiles t,
    getAllFiles Sample.remote 2 "acme" "demo" "" = Some (Ret allFiles, t)
    /\ exists t',
         get_repo_context (inject "src/a.ts" "boom" Sample.remote)
           Sample.decode 2 Sample.args
         = Some (Ret (text_result
                        (context_header "acme" "demo"
                         ++ JS.join separator
                              (rendered_blocks Sample.remote Sample.decode
                                 "acme" "demo"
                                 (filter
                                    (fun f => negb (file_path f =? "src/a.ts"))
                                    (selectFiles
                                       ["node_modules"; "dist"; "build"] []
                                       50 allFiles))))), t').
Proof.
  eexists. eexists. split; [vm_compute; reflexivity|].
  eapply (content_failure_drops_one_block Sample.remote Sample.decode 2
            Sample.args).
  - vm_compute. reflexivity.
  - vm_compute. intuition discriminate.
Defined.

(** ** The structure listing of a directory tree *)

Lemma strictly_sorted (l : list string) :
  StronglySorted lex_le l -> NoDup l ->
  StronglySorted (fun a b => lex_le a b /\ a <> b) l.
Proof.
  induction 1 as [|x l Hl IH Hx]; intros Hn; constructor;
    inversion Hn as [|? ? Hnot Hn']; subst; auto.
  rewrite Forall_forall in *. intros y Hy. split; auto.
  intros ->. contradiction.
Qed.

(** X16.  For a served directory tree and fuel above its height,
    get-repo-structure lists exactly the reachable file paths of the
    tree, each once, in strictly increasing order. *)
Theorem structure_of_directory_tree
    (remote : string -> string -> string -> response)
    (o r : string) (cs : list node) (fuel : nat) :
  serves remote o r "" cs = true ->
  directory_tree "" cs = true ->
  forest_height cs < fuel ->
  exists listed,
    get_repo_structure remote fuel o r
    = Some (Ret (text_result (structure_header o r ++ JS.join JS.nl listed)),
            walk_trace o r "" cs)
    /\ (forall p, In p listed <-> reachable cs p)
    /\ StronglySorted (fun a b => lex_le a b /\ a <> b) listed.
Proof.
  intros Hs Ht Hh. exists (JS.sort (forest_files cs)).
  pose proof (sort_perm (forest_files cs)) as Hp.
  split; [|split].
  - rewrite get_repo_structure_value, (walk_served _ _ _ _ _ _ Hh Hs).
    now rewrite map_path_as_file.
  - intros p. rewrite reachable_iff. split; apply Permutation_in; trivial.
    now apply Permutation_sym.
  - apply strictly_sorted; [apply sort_sorted|].
    apply (Permutation_NoDup (Permutation_sym Hp)).
    now apply forest_files_nodup with "".
Qed.

Lemma structure_of_directory_tree_witness :
  exists listed,
    get_repo_structure Sample.remote 2 "acme" "demo"
    = Some (Ret (text_result (structure_header "acme" "demo"
                              ++ JS.join JS.nl listed)),
            walk_trace "acme" "demo" "" Sample.tree)
    /\ (forall p, In p listed <-> reachable Sample.tree p)
    /\ StronglySorted (fun a b => lex_le a b /\ a <> b) listed.
Proof.
  apply (structure_of_directory_tree Sample.remote "acme" "demo"
           Sample.tree 2).
  - reflexivity.
  - reflexivity.
  - vm_compute. lia.
Defined.

(** ** Every failed listing is logged *)

Section Trace.

Variable remote : string -> string -> string -> response.
Variables o r : string.
Variable P : list event -> Prop.

Hypothesis P_nil : P [].
Hypothesis P_app : forall t1 t2, P t1 -> P t2 -> P (t1 ++ t2)%list.
Hypothesis P_call :
  forall p, P (Call o r p :: match remote o r p with
                             | Rejected e => [contents_error o r p e]
                             | _ => []
                             end).

(** A property of traces that holds of each listing call with its
    diagnostic line, and of concatenations, holds of every walk. *)
Lemma walk_trace_invariant (fuel : nat) :
  forall p res t, getAllFiles remote fuel o r p = Some (res, t) -> P t.
Proof.
  induction fuel as [|fuel IH]; intros p res t Hrun; [discriminate|].
  simpl in Hrun. rewrite getRepoContents_value, bind_ret in Hrun.
  destruct (for_of _ _ _) as [[res1 t1]|] eqn:Hloop; [|discriminate].
  injection Hrun as _ <-.
  apply (P_app (Call o r p :: match remote o r p with
                              | Rejected e => [contents_error o r p e]
                              | _ => []
                              end) t1); [apply P_call|].
  revert Hloop. generalize (@nil file) as acc.
  generalize (listing (remote o r p)) as items. clear p.
  intros items acc. revert res1 t1 acc.
  induction items as [|it items IHitems]; intros res1 t1 acc Hloop.
  - injection Hloop as _ <-. exact P_nil.
  - simpl in Hloop.
    assert (Hstep : forall res2 t2,
               getAllFiles_step (getAllFiles remote fuel o r) it acc
               = Some (res2, t2) -> P t2).
    { unfold getAllFiles_step. intros res2 t2.
      destruct (field_is (item_type it) "file");
        [intros H; injection H as _ <-; exact P_nil|].
      destruct (field_is (item_type it) "dir");
        [|intros H; injection H as _ <-; exact P_nil].
      intros H. apply bind_inv in H
        as [(e & Hm & _)|(sub & ta & tb & Hm & Hret & ->)].
      - eapply IH; eauto.
      - injection Hret as _ <-. apply P_app; [eapply IH; eauto | exact P_nil]. }
    apply bind_inv in Hloop
      as [(e & Hm & _)|(acc' & ta & tb & Hm & Hrest & ->)].
    + eapply Hstep; eauto.
    + apply P_app; [eapply Hstep; eauto | eapply IHitems; eauto].
Qed.

End Trace.

Lemma diagnostics_app (t1 t2 : list event) :
  diagnostics (t1 ++ t2) = (diagnostics t1 ++ diagnostics t2)%list.
Proof. unfold diagnostics. apply flat_map_app. Qed.

(** X17.  Of the lines that the program itself writes to the diagnostic
    channel during a walk (the [console.error] of the [catch] of
    [getRepoContents]; what a library writes on its own is not part of
    the trace), there is one for each listing call that was rejected, in
    the order of the calls, with the path and the message of the
    failure, and no other; every call of the walk is for the repository
    asked for. *)
Theorem walk_logs_each_failure
    (remote : string -> string -> string -> response)
    (fuel : nat) (o r p : string) (res : outcome (list file))
    (t : list event) :
  getAllFiles remote fuel o r p = Some (res, t) ->
  diagnostics t = listing_failures remote o r (called_paths t)
  /\ Forall (fun ev => match ev with
                       | Call o' r' _ => o' = o /\ r' = r
                       | ConsoleError _ _ => True
                       end) t.
Proof.
  intros Hrun. split.
  - apply (walk_trace_invariant remote o r
             (fun t => diagnostics t
                       = listing_failures remote o r (called_paths t)))
      with fuel p res; trivial.
    + intros t1 t2 H1 H2. rewrite diagnostics_app, called_paths_app.
      unfold listing_failures in *. now rewrite flat_map_app, H1, H2.
    + intros q. unfold listing_failures. cbn [called_paths flat_map app].
      destruct (remote o r q); cbn; now rewrite ?app_nil_r.
  - apply (walk_trace_invariant remote o r
             (Forall (fun ev => match ev with
                                | Call o' r' _ => o' = o /\ r' = r
                                | ConsoleError _ _ => True
                                end)))
      with fuel p res; trivial.
    + intros t1 t2 H1 H2. apply Forall_app. now split.
    + intros q. constructor; [now split|].
      destruct (remote o r q); repeat constructor.
Qed.

Lemma walk_logs_each_failure_witness :
  exists res t,
    getAllFiles (inject "src" "boom" Sample.remote) 2 "acme" "demo" ""
    = Some (res, t)
    /\ diagnostics t = [contents_error "acme" "demo" "src" "boom"]
    /\ diagnostics t
       = listing_failures (inject "src" "boom" Sample.remote) "acme" "demo"
           (called_paths t)
    /\ Forall (fun ev => match ev with
                         | Call o' r' _ => o' = "acme" /\ r' = "demo"
                         | ConsoleError _ _ => True
                         end) t.
Proof.
  eexists. eexists. split; [vm_compute; reflexivity|].
  split; [reflexivity|].
  eapply (walk_logs_each_failure (inject "src" "boom" Sample.remote) 2
            "acme" "demo" "").
  vm_compute. reflexivity.
Defined.

(** * What get-repo-context renders *)

(** The answer of get-repo-context, from what the walk returns: the
    header and the joined blocks of the selected files. *)
Lemma get_repo_context_blocks
    (remote : string -> string -> string -> response)
    (base64_utf8 : string -> outcome string) (fuel : nat)
    (a : context_args) (allFiles : list file) (t : list event) :
  getAllFiles remote fuel (owner a) (repo a) "" = Some (Ret allFiles, t) ->
  exists t',
    get_repo_context remote base64_utf8 fuel a
    = Some (Ret (text_result
                   (context_header (owner a) (repo a)
                    ++ JS.join separator
                         (rendered_blocks remote base64_utf8
                            (owner a) (repo a)
                            (selectFiles
                               (default (excludePaths a)
                                  ["node_modules"; "dist"; "build"])
                               (default (fileExtensions a) [])
                               (default (maxFiles a) 50%Z) allFiles)))),
            t').
Proof.
  intros Hrun. eexists. rewrite (get_repo_context_run _ _ _ _ _ _ Hrun).
  unfold formatContent.
  now rewrite blocks_of_records
    by (apply (selected_types _ _ _ _ _ _ _ _ _ _ Hrun)).
Qed.

(** Each rendered block is the block of one of the files given. *)
Lemma rendered_block_of
    (remote : string -> string -> string -> response)
    (base64_utf8 : string -> outcome string) (o r : string)
    (fs : list file) (b : string) :
  In b (rendered_blocks remote base64_utf8 o r fs) ->
  exists f c,
    In f fs /\ fetched base64_utf8 (remote o r (file_path f)) = Some c
    /\ b = fenced (file_path f) c ++ JS.nl ++ JS.nl.
Proof.
  unfold rendered_blocks. intros H. apply in_flat_map in H as (f & Hf & H).
  destruct (fetched base64_utf8 (remote o r (file_path f))) as [c|] eqn:E;
    [|contradiction].
  destruct H as [<-|[]]. now exists f, c.
Qed.

(** ** C4 *)

(** C4. The filter drops every file whose path contains an element of
    [excludePaths] as a substring, anywhere in the path, and without an
    extension list it drops no other file.  The text get-repo-context
    answers is its header followed by the joined blocks of the files it
    selected from the walk, one block for each selected file whose
    content was fetched: no path of a selected file, so no path of a
    rendered block, contains an element of [excludePaths]. *)
Theorem excluded_paths_absent
    (remote : string -> string -> string -> response)
    (base64_utf8 : string -> outcome string) (fuel : nat)
    (a : context_args) (res : outcome tool_result) (t : list event) :
  let excl := default (excludePaths a) ["node_modules"; "dist"; "build"] in
  get_repo_context remote base64_utf8 fuel a = Some (res, t) ->
  (forall exts f,
      (exists x, In x excl /\ substring x (file_path f)) ->
      keep_file excl exts f = false)
  /\ (forall f,
         keep_file excl [] f = false
         <-> exists x, In x excl /\ substring x (file_path f))
  /\ exists allFiles tw,
       getAllFiles remote fuel (owner a) (repo a) "" = Some (Ret allFiles, tw)
       /\ let selected :=
            selectFiles excl (default (fileExtensions a) [])
              (default (maxFiles a) 50%Z) allFiles in
          let blocks :=
            rendered_blocks remote base64_utf8 (owner a) (repo a) selected in
          res = Ret (text_result (context_header (owner a) (repo a)
                                  ++ JS.join separator blocks))
          /\ Forall (fun f => forall x, In x excl ->
                                        ~ substring x (file_path f)) selected
          /\ (forall b, In b blocks ->
                exists f c,
                  In f selected
                  /\ b = fenced (file_path f) c ++ JS.nl ++ JS.nl
                  /\ forall x, In x excl -> ~ substring x (file_path f)).
Proof.
  intros excl Hrun. split; [|split].
  - intros exts f Hx. apply excluded_iff in Hx. unfold keep_file. now rewrite Hx.
  - intros f. rewrite <- excluded_iff. unfold keep_file.
    destruct (existsb _ excl); split; congruence.
  - pose proof (get_repo_context_value remote base64_utf8 fuel a) as Hv.
    cbv zeta in Hv.
    destruct (getAllFiles remote fuel (owner a) (repo a) "")
      as [[[allFiles|e] t0]|] eqn:Hwalk; [| contradiction | congruence].
    clear Hv. exists allFiles, t0. split; [reflexivity|].
    destruct (get_repo_context_blocks remote base64_utf8 fuel a allFiles t0
                Hwalk) as [t1 Hb].
    fold excl in Hb. rewrite Hb in Hrun. injection Hrun as <- _.
    assert (Hsel : forall f,
               In f (selectFiles excl (default (fileExtensions a) [])
                       (default (maxFiles a) 50%Z) allFiles) ->
               forall x, In x excl -> ~ substring x (file_path f)).
    { intros f Hf. apply selected_kept in Hf as [_ Hk].
      now apply keep_file_not_excluded with (default (fileExtensions a) []). }
    cbv zeta. split; [reflexivity|]. split.
    + apply Forall_forall. exact Hsel.
    + intros b Hb'. apply rendered_block_of in Hb' as (f & c & Hf & _ & ->).
      exists f, c. repeat split; trivial. now apply Hsel.
Qed.

Lemma excluded_paths_absent_witness :
  exists res t,
    get_repo_context Sample.remote Sample.decode 2 Sample.args = Some (res, t)
    /\ (forall exts f,
           (exists x, In x ["node_modules"; "dist"; "build"]
                      /\ substring x (file_path f)) ->
           keep_file ["node_modules"; "dist"; "build"] exts f = false)
    /\ (forall f,
           keep_file ["node_modules"; "dist"; "build"] [] f = false
           <-> exists x, In x ["node_modules"; "dist"; "build"]
                         /\ substring x (file_path f))
    /\ exists allFiles tw,
         getAllFiles Sample.remote 2 "acme" "demo" ""
         = Some (Ret allFiles, tw)
         /\ let selected :=
              selectFiles ["node_modules"; "dist"; "build"] [] 50 allFiles in
            let blocks :=
              rendered_blocks Sample.remote Sample.decode "acme" "demo"
                selected in
            res = Ret (text_result (context_header "acme" "demo"
                                    ++ JS.join separator blocks))
            /\ Forall (fun f =>
                         forall x, In x ["node_modules"; "dist"; "build"] ->
                                   ~ substring x (file_path f)) selected
            /\ (forall b, In b blocks ->
                  exists f c,
                    In f selected
                    /\ b = fenced (file_path f) c ++ JS.nl ++ JS.nl
                    /\ forall x, In x ["node_modules"; "dist"; "build"] ->
                                 ~ substring x (file_path f)).
Proof.
  eexists. eexists. split.
  - vm_compute. reflexivity.
  - eapply (excluded_paths_absent Sample.remote Sample.decode 2 Sample.args).
    vm_compute. reflexivity.
Defined.

(** ** C10 *)

(** C10. In the loop of the walk an entry whose type is neither ['file']
    nor ['dir'] changes nothing and causes no call.  So every record of
    the walk comes from a listed entry of type exactly ['file'] and every
    remote call of the walk is for the root or for an entry of type
    exactly ['dir'].  get-repo-structure lists the paths of the records
    of the walk, and get-repo-context renders one block for each file it
    selects from them whose content is fetched: every listed path and
    the path of every rendered block is the path of such a file entry. *)
Theorem only_file_entries
    (remote : string -> string -> string -> response)
    (base64_utf8 : string -> outcome string) (fuel : nat)
    (a : context_args) (out : list file) (t : list event) :
  getAllFiles remote fuel (owner a) (repo a) "" = Some (Ret out, t) ->
  (forall recur it acc,
      item_type it <> Some "file" -> item_type it <> Some "dir" ->
      getAllFiles_step recur it acc = Some (Ret acc, []))
  /\ Forall (fun f => file_type f = "file"
                      /\ file_entry remote (owner a) (repo a) "" (file_path f))
            out
  /\ Forall (call_visited remote (owner a) (repo a) "") t
  /\ (exists listed,
        get_repo_structure remote fuel (owner a) (repo a)
        = Some (Ret (text_result (structure_header (owner a) (repo a)
                                  ++ JS.join JS.nl listed)), t)
        /\ Permutation listed (map file_path out)
        /\ Forall (file_entry remote (owner a) (repo a) "") listed)
  /\ (let selected :=
        selectFiles (default (excludePaths a) ["node_modules"; "dist"; "build"])
          (default (fileExtensions a) []) (default (maxFiles a) 50%Z) out in
      let blocks :=
        rendered_blocks remote base64_utf8 (owner a) (repo a) selected in
      (exists t',
          get_repo_context remote base64_utf8 fuel a
          = Some (Ret (text_result (context_header (owner a) (repo a)
                                    ++ JS.join separator blocks)), t'))
      /\ Forall (fun f => file_entry remote (owner a) (repo a) ""
                            (file_path f)) selected
      /\ (forall b, In b blocks ->
            exists f c,
              In f selected
              /\ b = fenced (file_path f) c ++ JS.nl ++ JS.nl
              /\ file_entry remote (owner a) (repo a) "" (file_path f))).
Proof.
  intros Hrun.
  destruct (walk_sound remote (owner a) (repo a) "" fuel ""
              (visited_root _ _ _ _) out t Hrun) as [Hout Ht].
  rewrite Forall_forall in Hout.
  split; [|split; [|split; [|split]]]; trivial.
  - intros recur it acc Hf Hd. apply step_other.
    + destruct (field_is (item_type it) "file") eqn:E; trivial.
      now apply field_is_true in E.
    + destruct (field_is (item_type it) "dir") eqn:E; trivial.
      now apply field_is_true in E.
  - now apply Forall_forall.
  - exists (JS.sort (map file_path out)).
    rewrite get_repo_structure_value, Hrun. split; trivial.
    split; [apply sort_perm|].
    apply Forall_forall. intros p Hp.
    apply (Permutation_in _ (sort_perm _)) in Hp.
    apply in_map_iff in Hp as (f & <- & Hf). now apply Hout.
  - cbv zeta.
    assert (Hsel : forall f,
               In f (selectFiles
                       (default (excludePaths a)
                          ["node_modules"; "dist"; "build"])
                       (default (fileExtensions a) [])
                       (default (maxFiles a) 50%Z) out) ->
               file_entry remote (owner a) (repo a) "" (file_path f)).
    { intros f Hf. apply selected_kept in Hf as [Hf _]. now apply Hout. }
    split; [|split].
    + apply (get_repo_context_blocks _ _ _ _ _ _ Hrun).
    + apply Forall_forall. exact Hsel.
    + intros b Hb. apply rendered_block_of in Hb as (f & c & Hf & _ & ->).
      exists f, c. repeat split; trivial. now apply Hsel.
Qed.

Lemma only_file_entries_witness :
  exists out t,
    getAllFiles Sample.remote 2 "acme" "demo" "" = Some (Ret out, t)
    /\ ~ In "latest" (map file_path out)
    /\ (forall recur it acc,
           item_type it <> Some "file" -> item_type it <> Some "dir" ->
           getAllFiles_step recur it acc = Some (Ret acc, []))
    /\ Forall (fun f => file_type f = "file"
                        /\ file_entry Sample.remote "acme" "demo" ""
                             (file_path f)) out
    /\ Forall (call_visited Sample.remote "acme" "demo" "") t
    /\ (exists listed,
          get_repo_structure Sample.remote 2 "acme" "demo"
          = Some (Ret (text_result (structure_header "acme" "demo"
                                    ++ JS.join JS.nl listed)), t)
          /\ Permutation listed (map file_path out)
          /\ Forall (file_entry Sample.remote "acme" "demo" "") listed)
    /\ (let selected :=
          selectFiles ["node_modules"; "dist"; "build"] [] 50 out in
        let blocks :=
          rendered_blocks Sample.remote Sample.decode "acme" "demo"
            selected in
        (exists t',
            get_repo_context Sample.remote Sample.decode 2 Sample.args
            = Some (Ret (text_result (context_header "acme" "demo"
                                      ++ JS.join separator blocks)), t'))
        /\ Forall (fun f => file_entry Sample.remote "acme" "demo" ""
                              (file_path f)) selected
        /\ (forall b, In b blocks ->
              exists f c,
                In f selected
                /\ b = fenced (file_path f) c ++ JS.nl ++ JS.nl
                /\ file_entry Sample.remote "acme" "demo" "" (file_path f))).
Proof.
  eexists. eexists. split; [vm_compute; reflexivity|]. split.
  - simpl. intuition discriminate.
  - eapply (only_file_entries Sample.remote Sample.decode 2 Sample.args).
    vm_compute. reflexivity.
Defined.
